(** * Gutenberg hooks: ref merging, audio URL parsing, font-family support

    A shallow embedding of three pieces of the editor:
    - [packages/compose/src/hooks/use-merge-refs/index.js]
    - [packages/components/src/mobile/audio-player/audio-url-parser]
      (exercised by [test/audio-url-parser.test.js])
    - [packages/block-editor/src/hooks/font-family.js]

    Each part has a module with the model and a module with the facts
    proved about it. *)

From Stdlib Require Import Ascii String.
From stdpp Require Import base option list gmap strings.

Set Default Proof Using "Type".

(** ** useMergeRefs: the model *)

Module MergeRefs.

(** What the framework hands to a ref: a DOM element (identified by a
    number), [null] on detach; [undefined] is what [useRef()] holds before
    the first attach. *)
Inductive value := VUndefined | VNull | VElement (n : nat).

#[export] Instance value_eq_dec : EqDecision value.
Proof. solve_decision. Defined.

(** JS truthiness of a [value]: only an element is truthy. *)
Definition toBoolean (v : value) : bool :=
  match v with VElement _ => true | _ => false end.

(** An entry of the [refs] array.  Functions and objects have an identity;
    [===] compares it. *)
Inductive ref :=
  | RUndefined
  | RNull
  | RFunction (f : nat)
  | RObject (o : nat).

#[export] Instance ref_eq_dec : EqDecision ref.
Proof. solve_decision. Defined.

(** [a !== b] *)
Definition strictNotEquals (a b : ref) : bool := negb (bool_decide (a = b)).

(** The world outside the hook.  [objs !! o = Some v] says that object [o]
    has an own property [current] holding [v]; [None] says it has no such
    own property.  [log] records, in order, every assignment that took
    effect: a call [f( v )] of a callback ref or a write [o.current = v]. *)
Record heap := Heap {
  log : list (ref * value);
  objs : gmap nat value;
}.

Definition typeofFunction (r : ref) : bool :=
  match r with RFunction _ => true | _ => false end.

Definition refToBoolean (r : ref) : bool :=
  match r with RUndefined | RNull => false | _ => true end.

(** [r.hasOwnProperty( 'current' )], a method call on [r] itself.
    [inherits o] says whether object [o] has [Object.prototype] in its
    prototype chain and with it the method; an object made by
    [Object.create( null )] has not.  [None] is a TypeError: reading a
    property of [null] or [undefined], or calling the [hasOwnProperty] that
    an object without the method does not have. *)
Definition hasOwnProperty_current (inherits : nat → bool) (r : ref) (h : heap)
    : option bool :=
  match r with
  | RUndefined | RNull => None
  | RFunction _ => Some false
  | RObject o =>
    if inherits o then Some (bool_decide (is_Some (objs h !! o))) else None
  end.

(** The assignment taking effect. *)
Definition callRef (r : ref) (v : value) (h : heap) : heap :=
  {| log := log h ++ [(r, v)]; objs := objs h |}.

Definition setCurrent (r : ref) (v : value) (h : heap) : heap :=
  {| log := log h ++ [(r, v)];
     objs := match r with RObject o => <[o := v]> (objs h) | _ => objs h end |}.

(** [assignRef( ref, value )]; [None] is a thrown exception. *)
Definition assignRefIn (inherits : nat → bool) (r : ref) (v : value) (h : heap)
    : option heap :=
  if typeofFunction r then Some (callRef r v h)
  else if refToBoolean r then
    b ← hasOwnProperty_current inherits r h;
    if (b : bool) then Some (setCurrent r v h) else Some h
  else Some h.

(** The hook is followed in a world of ordinary objects, which all inherit
    from [Object.prototype]. *)
Definition ordinary : nat → bool := λ _, true.

Definition assignRef (r : ref) (v : value) (h : heap) : option heap :=
  assignRefIn ordinary r v h.

(** [for ( const ref of refsToAssign ) assignRef( ref, value )] *)
Fixpoint assignAll (refs : list ref) (v : value) (h : heap) : option heap :=
  match refs with
  | [] => Some h
  | r :: rest => h' ← assignRef r v h; assignAll rest v h'
  end.

(** The body of [refs.forEach( ( ref, index ) => ... )] in the first layout
    effect, from [index] on.  [previousRefs.current[ index ]] is
    [undefined] past the end. *)
Fixpoint diffRefs (refs : list ref) (index : nat) (previous : list ref)
    (el : value) (h : heap) : option heap :=
  match refs with
  | [] => Some h
  | r :: rest =>
    let previousRef := default RUndefined (previous !! index) in
    h1 ← (if strictNotEquals r previousRef
          then h' ← assignRef previousRef VNull h; assignRef r el h'
          else Some h);
    diffRefs rest (S index) previous el h1
  end.

(** One mounted instance of a component calling [useMergeRefs]: the four
    [useRef] cells, what the framework remembers for [useLayoutEffect] and
    [useCallback], and the world. *)
Record state := State {
  element : value;
  didElementChange : bool;
  previousRefs : list ref;
  currentRefs : list ref;
  effectDeps : option (list ref);
  callbackMemo : option (nat * list ref);
  renders : nat;
  world : heap;
}.

(** Before the first render: [useRef()], [useRef( false )], [useRef( [] )]. *)
Definition init (h : heap) : state :=
  {| element := VUndefined; didElementChange := false;
     previousRefs := []; currentRefs := [];
     effectDeps := None; callbackMemo := None;
     renders := 0; world := h |}.

(** Modelled from the spec: the host framework's hooks are not among the
    sources.  Dependency arrays are "identity-compared across renders",
    entry by entry over their common prefix. *)
Fixpoint depsEqual (next prev : list ref) : bool :=
  match next, prev with
  | n :: next', p :: prev' => bool_decide (n = p) && depsEqual next' prev'
  | _, _ => true
  end.

Definition areHookInputsEqual (next : list ref) (prev : option (list ref)) : bool :=
  match prev with
  | None => false
  | Some p => depsEqual next p
  end.

(** Modelled from the spec: the host framework's [useCallback( fn, deps )]
    is not among the sources.  [fresh] is the identity of the function
    created by this render; the memoized one is returned while the
    dependencies compare equal. *)
Definition useCallback (fresh : nat) (deps : list ref)
    (memo : option (nat * list ref)) : nat * option (nat * list ref) :=
  match memo with
  | Some (fn, prevDeps) =>
    if areHookInputsEqual deps (Some prevDeps) then (fn, Some (fn, deps))
    else (fresh, Some (fresh, deps))
  | None => (fresh, Some (fresh, deps))
  end.

(** The render phase of [useMergeRefs( refs )]: returns the merged ref
    callback's identity, whether the first layout effect is scheduled, and
    the instance after [currentRefs.current = refs]. *)
Definition useMergeRefs (refs : list ref) (s : state) : nat * bool * state :=
  let fire := negb (areHookInputsEqual refs (effectDeps s)) in
  let '(callback, memo) := useCallback (renders s) [] (callbackMemo s) in
  (callback, fire,
   {| element := element s; didElementChange := didElementChange s;
      previousRefs := previousRefs s; currentRefs := refs;
      effectDeps := Some refs; callbackMemo := memo;
      renders := S (renders s); world := world s |}).

(** The first layout effect, closed over this render's [refs]. *)
Definition refsEffect (refs : list ref) (s : state) : option state :=
  h ← (if negb (didElementChange s)
       then diffRefs refs 0 (previousRefs s) (element s) (world s)
       else Some (world s));
  Some {| element := element s; didElementChange := didElementChange s;
          previousRefs := refs; currentRefs := currentRefs s;
          effectDeps := effectDeps s; callbackMemo := callbackMemo s;
          renders := renders s; world := h |}.

(** The second layout effect, run after every render. *)
Definition resetEffect (s : state) : state :=
  {| element := element s; didElementChange := false;
     previousRefs := previousRefs s; currentRefs := currentRefs s;
     effectDeps := effectDeps s; callbackMemo := callbackMemo s;
     renders := renders s; world := world s |}.

(** The merged ref callback [( value ) => { ... }].  [element] is a
    [useRef] object, it has its own [current]: [assignRef( element, value )]
    stores [value] there. *)
Definition mergedRef (v : value) (s : state) : option state :=
  let refsToAssign := if toBoolean v then currentRefs s else previousRefs s in
  h ← assignAll refsToAssign v (world s);
  Some {| element := v; didElementChange := true;
          previousRefs := previousRefs s; currentRefs := currentRefs s;
          effectDeps := effectDeps s; callbackMemo := callbackMemo s;
          renders := renders s; world := h |}.

(** What happens to the element the merged ref is attached to during one
    commit. *)
Inductive elementChange :=
  | Unchanged
  | Mounted (n : nat)
  | Unmounted
  | Swapped (n : nat).

(** Modelled from the spec: the host framework is not among the sources.
    "mount/unmount/swap": it calls the ref attached to an element with the
    element on mount and with [null] on unmount, and detaches the old
    element before it attaches the new one. *)
Definition refCalls (c : elementChange) : list value :=
  match c with
  | Unchanged => []
  | Mounted n => [VElement n]
  | Unmounted => [VNull]
  | Swapped n => [VNull; VElement n]
  end.

Fixpoint callMergedRef (vs : list value) (s : state) : option state :=
  match vs with
  | [] => Some s
  | v :: rest => s' ← mergedRef v s; callMergedRef rest s'
  end.

(** Modelled from the spec: the host framework is not among the sources.
    "effects run after DOM commit, in declaration order": the commit calls
    the ref of the changed element, then the first layout effect if its
    dependencies changed, then the second. *)
Definition commit (refs : list ref) (fire : bool) (c : elementChange)
    (s : state) : option state :=
  s1 ← callMergedRef (refCalls c) s;
  s2 ← (if fire then refsEffect refs s1 else Some s1);
  Some (resetEffect s2).

(** One render cycle of the instance. *)
Definition cycle (refs : list ref) (c : elementChange) (s : state)
    : option (nat * state) :=
  let '(callback, fire, s0) := useMergeRefs refs s in
  s' ← commit refs fire c s0;
  Some (callback, s').

(** A history of render cycles; the callbacks returned are collected. *)
Fixpoint run (history : list (list ref * elementChange)) (s : state)
    : option (list nat * state) :=
  match history with
  | [] => Some ([], s)
  | (refs, c) :: rest =>
    '(callback, s1) ← cycle refs c s;
    '(callbacks, s2) ← run rest s1;
    Some (callback :: callbacks, s2)
  end.

(** Whether an assignment to [r] takes effect in [h]. *)
Definition isAssignable (h : heap) (r : ref) : bool :=
  match r with
  | RFunction _ => true
  | RObject o => bool_decide (is_Some (objs h !! o))
  | _ => false
  end.

(** The assignments of [v] to the entries of [refs] that take effect. *)
Definition assignments (h : heap) (refs : list ref) (v : value)
    : list (ref * value) :=
  (λ r, (r, v)) <$> filter (λ r, isAssignable h r = true) refs.

(** The assignments the list diff makes, position by position. *)
Fixpoint diffAssignments (h : heap) (refs : list ref) (index : nat)
    (previous : list ref) (el : value) : list (ref * value) :=
  match refs with
  | [] => []
  | r :: rest =>
    let previousRef := default RUndefined (previous !! index) in
    (if strictNotEquals r previousRef
     then assignments h [previousRef] VNull ++ assignments h [r] el
     else [])
    ++ diffAssignments h rest (S index) previous el
  end.

(** The heap after the assignments [delta] have taken effect, in order. *)
Definition applyLog (delta : list (ref * value)) (h : heap) : heap :=
  foldl (λ h' a, setCurrent a.1 a.2 h') h delta.

(** The assignments a commit's calls of the merged ref make: [null] goes to
    the previous list, an element to the current one. *)
Definition detachments (h : heap) (previous : list ref) (c : elementChange)
    : list (ref * value) :=
  match c with
  | Unmounted | Swapped _ => assignments h previous VNull
  | _ => []
  end.

Definition attachments (h : heap) (refs : list ref) (c : elementChange)
    : list (ref * value) :=
  match c with
  | Mounted n | Swapped n => assignments h refs (VElement n)
  | _ => []
  end.

(** The instance between two render cycles, when the ref list has kept
    its length: the flag is reset and the list of the last render is the
    one the first layout effect has recorded. *)
Definition settled (s : state) : Prop :=
  didElementChange s = false ∧
  effectDeps s = Some (previousRefs s) ∧
  currentRefs s = previousRefs s.

(** An entry that is no ref: [null], [undefined], or an (ordinary) object
    without an own property [current]. *)
Definition isNoRef (h : heap) (r : ref) : Prop :=
  r = RNull ∨ r = RUndefined ∨ ∃ o, r = RObject o ∧ objs h !! o = None.

End MergeRefs.

(** ** parseAudioUrl: the model *)

Module AudioUrl.

(** Whether the character [c] occurs in [s]. *)
Fixpoint contains (c : ascii) (s : string) : bool :=
  match s with
  | EmptyString => false
  | String a s' => Ascii.eqb a c || contains c s'
  end.

(** The part of [s] before the first character satisfying [stop]. *)
Fixpoint takeUntil (stop : ascii → bool) (s : string) : string :=
  match s with
  | EmptyString => EmptyString
  | String a s' => if stop a then EmptyString else String a (takeUntil stop s')
  end.

(** [s] cut at the last occurrence of [c]: what is before it and what is
    after it; [None] when [c] does not occur. *)
Fixpoint splitLast (c : ascii) (s : string) : option (string * string) :=
  match s with
  | EmptyString => None
  | String a s' =>
    match splitLast c s' with
    | Some (before, after) => Some (String a before, after)
    | None => if Ascii.eqb a c then Some (EmptyString, s') else None
    end
  end.

Definition isQueryOrFragmentStart (a : ascii) : bool :=
  Ascii.eqb a "?" || Ascii.eqb a "#".

(** Modelled from the spec: the parser's source file [audio-url-parser.js]
    is missing, only its test is at hand.  "strip query string and
    fragment": the URL up to its first [?] or [#]. *)
Definition stripQueryAndFragment (url : string) : string :=
  takeUntil isQueryOrFragmentStart url.

(** Modelled from the spec: the parser's source file is missing.  "extract
    the final path segment": what follows the last [/] of the URL without
    its query string and fragment. *)
Definition finalSegment (url : string) : string :=
  let path := stripQueryAndFragment url in
  match splitLast "/" path with
  | Some (_, segment) => segment
  | None => path
  end.

Record parsed := Parsed { title : string; extension : string }.

(** Modelled from the spec: the parser's source file is missing.  "split
    on the last [.] to separate a title from an extension; if no [.]
    exists in the segment, the extension is empty and the whole segment is
    the title." *)
Definition parseAudioUrl (url : string) : parsed :=
  let segment := finalSegment url in
  match splitLast "." segment with
  | Some (t, e) => {| title := t; extension := e |}
  | None => {| title := segment; extension := EmptyString |}
  end.

(** Modelled from the spec: what "the final path segment" of a URL is,
    said without the parser.  The URL reads [before], the segment, [rest]:
    [before] is empty or ends with the last [/] of the path, the segment
    holds no [/], and [rest] is empty or is the query string or fragment,
    beginning at the URL's first [?] or [#]. *)
Definition isFinalSegmentOf (segment url : string) : Prop :=
  ∃ before rest,
    url = before +:+ segment +:+ rest ∧
    (before = "" ∨ ∃ dir, before = dir +:+ "/") ∧
    contains "?" before = false ∧
    contains "#" before = false ∧
    contains "/" segment = false ∧
    contains "?" segment = false ∧
    contains "#" segment = false ∧
    (rest = "" ∨ ∃ c rest', rest = String c rest' ∧ isQueryOrFragmentStart c = true).

(** The URLs of the test file. *)
Definition supportedAudioUrlsWithExtensions : list string :=
  [ "https://www.mp3.com/file.mp3?key1=value1&key2=value2#anchorforsomereason";
    "https://www.mp3.com/file.mp3?key1=value1&key2=value2";
    "https://www.mp3.com/file.mp3" ]%string.

Definition supportedAudioUrlsWithoutExtensions : list string :=
  [ "https://www.mp3.com/file?key1=value1&key2=value2#anchorforsomereason";
    "https://www.mp3.com/file?key1=value1&key2=value2";
    "https://www.mp3.com/file";
    "https://www.mp3.com/folder/file" ]%string.

End AudioUrl.

(** ** Font-family block support: the model *)

Module FontFamily.

Definition FONT_FAMILY_SUPPORT_KEY : string := "__experimentalFontFamily".

Definition SKIP_TYPOGRAPHY_SERIALIZATION_KEY : string :=
  "__experimentalSkipTypographySerialization".

(** An attribute's schema, such as [{ type: 'string' }]. *)
Record attributeSchema := AttributeSchema {
  schemaType : string;
  schemaDefault : option string;
}.

(** Block settings, also the registered block type.  A support flag is
    kept as the truthiness of the value declared under its key. *)
Record blockType := BlockType {
  typeName : string;
  typeAttributes : gmap string attributeSchema;
  supports : gmap string bool;
}.

(** Modelled from the spec: [hasBlockSupport] of the blocks package is
    missing.  "support flags (e.g., font-family support key)", "no-ops when
    the capability flag is absent": the flag declared under [feature],
    false when there is none or no block type. *)
Definition hasBlockSupport (block : option blockType) (feature : string) : bool :=
  match block with
  | Some b => default false (supports b !! feature)
  | None => false
  end.

(** [addAttributes( settings )] *)
Definition addAttributes (settings : blockType) : blockType :=
  if negb (hasBlockSupport (Some settings) FONT_FAMILY_SUPPORT_KEY) then settings
  else if negb (bool_decide (is_Some (typeAttributes settings !! "fontFamily")))
  then {| typeName := typeName settings;
          typeAttributes :=
            <["fontFamily" := {| schemaType := "string"; schemaDefault := None |}]>
              (typeAttributes settings);
          supports := supports settings |}
  else settings.

(** JS truthiness of a string that may be [undefined]. *)
Definition truthy (s : option string) : bool :=
  match s with
  | Some s => negb (String.eqb s "")
  | None => false
  end.

(** [\s] over the ASCII range: tab, line feed, vertical tab, form feed,
    carriage return, space. *)
Definition isWhitespace (c : ascii) : bool :=
  let n := nat_of_ascii c in
  (Nat.leb 9 n && Nat.leb n 13) || Nat.eqb n 32.

(** [compact( value.split( /\s+/ ) )]: the maximal runs without
    whitespace; [cur] is the run being read. *)
Fixpoint splitWhitespace (cur : string) (s : string) : list string :=
  match s with
  | EmptyString => if String.eqb cur "" then [] else [cur]
  | String c s' =>
    if isWhitespace c
    then (if String.eqb cur "" then splitWhitespace "" s'
          else cur :: splitWhitespace "" s')
    else splitWhitespace (cur +:+ String c "") s'
  end.

Definition tokens (s : string) : list string := splitWhitespace "" s.

Fixpoint hasWhitespace (s : string) : bool :=
  match s with
  | EmptyString => false
  | String c s' => isWhitespace c || hasWhitespace s'
  end.

(** A class name's token: not empty, no whitespace. *)
Definition isToken (t : string) : Prop := t ≠ "" ∧ hasWhitespace t = false.

(** [uniq]: the first occurrence of each entry, in order. *)
Fixpoint uniq (seen : list string) (l : list string) : list string :=
  match l with
  | [] => []
  | x :: rest =>
    if bool_decide (x ∈ seen) then uniq seen rest
    else x :: uniq (x :: seen) rest
  end.

Fixpoint join (sep : string) (l : list string) : string :=
  match l with
  | [] => ""
  | [x] => x
  | x :: rest => x +:+ sep +:+ join sep rest
  end.

(** Modelled from the spec: the token-list package is missing.  The spec
    has the class appended to the class name and the call site uses the
    list "to dedupe classes": a token list holds the whitespace-separated
    tokens of its value, each once, and its value joins them with single
    spaces. *)
Record TokenList := {
  valueAsArray : list string;
  currentValue : string;
}.

Definition setValue (v : string) : TokenList :=
  let arr := uniq [] (tokens v) in
  {| valueAsArray := arr; currentValue := join " " arr |}.

(** [new TokenList( initialValue = '' )] *)
Definition newTokenList (initialValue : option string) : TokenList :=
  setValue (default "" initialValue).

(** [add( item )]: [this.value += ' ' + item] *)
Definition add (item : string) (t : TokenList) : TokenList :=
  setValue (currentValue t +:+ " " +:+ item).

(** Props of the save element: the class name and everything else. *)
Record saveProps := SaveProps {
  className : option string;
  otherSaveProps : gmap string string;
}.

(** [attributes.style.typography.fontFamily] and what is around it. *)
Record typographyStyle := { styleFontFamily : option string }.
Record styleAttribute := { typography : option typographyStyle }.

Record blockAttributes := BlockAttributes {
  fontFamily : option string;
  style : option styleAttribute;
}.

(** The class [has-<slug>-font-family]. *)
Definition fontFamilyClass (slug : string) : string :=
  "has-" +:+ slug +:+ "-font-family".

(** [addSaveProps( props, blockType, attributes )] *)
Definition addSaveProps (props : saveProps) (block : blockType)
    (attributes : option blockAttributes) : saveProps :=
  if negb (hasBlockSupport (Some block) FONT_FAMILY_SUPPORT_KEY) then props
  else if hasBlockSupport (Some block) SKIP_TYPOGRAPHY_SERIALIZATION_KEY then props
  else if negb (truthy (attributes ≫= fontFamily)) then props
  else
    let classes := newTokenList (className props) in
    let classes := add (fontFamilyClass (default "" (attributes ≫= fontFamily))) classes in
    let newClassName := currentValue classes in
    {| className := if truthy (Some newClassName) then Some newClassName else None;
       otherSaveProps := otherSaveProps props |}.

(** An entry of the [typography.fontFamilies] setting. *)
Record fontFamilyPreset := FontFamilyPreset {
  slug : string;
  presetFontFamily : string;
}.

(** lodash's [find], not among the sources: the first entry satisfying
    the predicate; [undefined] when there is none or no collection. *)
Definition find {A} (collection : option (list A)) (p : A → bool) : option A :=
  collection ≫= List.find p.

(** A style object: a property may hold [undefined] ([None]). *)
Record wrapperPropsT := WrapperProps {
  wrapperStyle : option (gmap string (option string));
  otherWrapperProps : gmap string string;
}.

(** Props of a block in the editor's block list. *)
Record blockProps := BlockProps {
  name : string;
  attributes : blockAttributes;
  wrapperProps : option wrapperPropsT;
  otherProps : gmap string string;
}.

(** [style?.typography?.fontFamily] *)
Definition inlineFontFamily (style : option styleAttribute) : option string :=
  match style with
  | Some st =>
    match typography st with
    | Some t => styleFontFamily t
    | None => None
    end
  | None => None
  end.

(** [{ fontFamily: fontFamilyValue, ...wrapperProps?.style }]: the keys
    spread last win. *)
Definition mergeStyle (fontFamilyValue : option string)
    (wrapper : option wrapperPropsT) : gmap string (option string) :=
  default ∅ (wrapper ≫= wrapperStyle) ∪ {["fontFamily" := fontFamilyValue]}.

(** [withFontFamilyInlineStyles]: the props handed to the wrapped
    [BlockListBlock].  [registry] is the block registry [hasBlockSupport]
    resolves a name in, [fontFamilies] the value of
    [useSetting( 'typography.fontFamilies' )]. *)
Definition withFontFamilyInlineStyles (registry : gmap string blockType)
    (fontFamilies : option (list fontFamilyPreset)) (props : blockProps)
    : blockProps :=
  let blockName := name props in
  let fontFamily' := fontFamily (attributes props) in
  let style' := style (attributes props) in
  if negb (hasBlockSupport (registry !! blockName) FONT_FAMILY_SUPPORT_KEY)
     || hasBlockSupport (registry !! blockName) SKIP_TYPOGRAPHY_SERIALIZATION_KEY
     || negb (truthy fontFamily')
     || truthy (inlineFontFamily style')
  then props
  else
    let fontFamilyValue :=
      presetFontFamily <$>
        find fontFamilies (λ p, bool_decide (Some (slug p) = fontFamily')) in
    {| name := name props;
       attributes := attributes props;
       wrapperProps :=
         Some {| wrapperStyle := Some (mergeStyle fontFamilyValue (wrapperProps props));
                 otherWrapperProps :=
                   default (∅ : gmap string string)
                     (otherWrapperProps <$> wrapperProps props) |};
       otherProps := otherProps props |}.

(** [useIsFontFamilyDisabled( { name } )] *)
Definition useIsFontFamilyDisabled (registry : gmap string blockType)
    (fontFamilies : option (list fontFamilyPreset)) (blockName : string) : bool :=
  negb (bool_decide (is_Some fontFamilies))
  || Nat.eqb (length (default [] fontFamilies)) 0
  || negb (hasBlockSupport (registry !! blockName) FONT_FAMILY_SUPPORT_KEY).

(** The props [FontFamilyEdit] hands to [FontFamilyControl].  [onChange]
    is kept as the [fontFamily] attribute it passes to [setAttributes]. *)
Record fontFamilyControlProps := FontFamilyControlProps {
  controlClassName : string;
  controlFontFamilies : option (list fontFamilyPreset);
  controlValue : option string;
  controlOnChange : string → option string;
}.

(** [onChange( newValue )] inside [FontFamilyEdit]: the slug of the first
    preset whose font family is the new value. *)
Definition onChange (fontFamilies : option (list fontFamilyPreset))
    (newValue : string) : option string :=
  slug <$> find fontFamilies (λ p, bool_decide (presetFontFamily p = newValue)).

(** [FontFamilyEdit( { name, setAttributes, attributes: { fontFamily } } )]:
    [None] is the [null] it renders when the feature is disabled. *)
Definition FontFamilyEdit (registry : gmap string blockType)
    (fontFamilies : option (list fontFamilyPreset)) (blockName : string)
    (attrs : blockAttributes) : option fontFamilyControlProps :=
  let isDisable := useIsFontFamilyDisabled registry fontFamilies blockName in
  if isDisable then None
  else
    let value :=
      presetFontFamily <$>
        find fontFamilies (λ p, bool_decide (fontFamily attrs = Some (slug p))) in
    Some {| controlClassName := "block-editor-hooks-font-family-control";
            controlFontFamilies := fontFamilies;
            controlValue := value;
            controlOnChange := onChange fontFamilies |}.

End FontFamily.

(** ** useMergeRefs: facts *)

Module MergeRefsFacts.
Import MergeRefs.

Lemma assignments_cons h r refs v :
  assignments h (r :: refs) v = assignments h [r] v ++ assignments h refs v.
Proof.
  unfold assignments. rewrite !filter_cons, filter_nil.
  destruct (decide (isAssignable h r = true)); reflexivity.
Qed.

Lemma assignments_app h l1 l2 v :
  assignments h (l1 ++ l2) v = assignments h l1 v ++ assignments h l2 v.
Proof. unfold assignments. by rewrite filter_app, fmap_app. Qed.

Lemma assignments_one h r v :
  assignments h [r] v = if isAssignable h r then [(r, v)] else [].
Proof.
  unfold assignments. rewrite filter_cons, filter_nil.
  destruct (isAssignable h r); by case_decide.
Qed.

Lemma elem_of_assignments h refs v r w :
  (r, w) ∈ assignments h refs v ↔ r ∈ refs ∧ isAssignable h r = true ∧ w = v.
Proof.
  unfold assignments. rewrite list_elem_of_fmap. split.
  - intros (x & [= -> ->] & Hx). apply list_elem_of_filter in Hx. tauto.
  - intros (Hr & Ha & ->). exists r. split; [done|]. by apply list_elem_of_filter.
Qed.

Lemma applyLog_app d1 d2 h : applyLog (d1 ++ d2) h = applyLog d2 (applyLog d1 h).
Proof. unfold applyLog. by rewrite foldl_app. Qed.

Lemma log_applyLog d h : log (applyLog d h) = log h ++ d.
Proof.
  revert h. induction d as [|a d IH]; intros h; simpl.
  - by rewrite app_nil_r.
  - change (log (applyLog d (setCurrent a.1 a.2 h)) = log h ++ a :: d).
    rewrite IH. simpl. destruct a. by rewrite <- app_assoc.
Qed.

(** An assignment that takes effect does not change which refs are
    assignable. *)
Lemma isAssignable_setCurrent h r v r' :
  isAssignable h r = true →
  isAssignable (setCurrent r v h) r' = isAssignable h r'.
Proof.
  intros Hr. destruct r' as [| |f'|o']; try reflexivity.
  destruct r as [| |f|o]; try reflexivity. simpl in *.
  destruct (decide (o = o')) as [->|Hne].
  - rewrite lookup_insert_eq. rewrite Hr. apply bool_decide_eq_true. eauto.
  - by rewrite lookup_insert_ne.
Qed.

Lemma isAssignable_applyLog d h r :
  Forall (λ a, isAssignable h a.1 = true) d →
  isAssignable (applyLog d h) r = isAssignable h r.
Proof.
  revert h. induction d as [|a d IH]; intros h Hd; [reflexivity|].
  inversion Hd as [|? ? Ha Hd']; subst.
  change (isAssignable (applyLog d (setCurrent a.1 a.2 h)) r = isAssignable h r).
  rewrite IH.
  - by apply isAssignable_setCurrent.
  - eapply Forall_impl; [exact Hd'|]. intros x Hx. simpl.
    by rewrite isAssignable_setCurrent.
Qed.

Lemma assignments_assignable h refs v :
  Forall (λ a, isAssignable h a.1 = true) (assignments h refs v).
Proof.
  apply Forall_forall. intros [r w] Hin.
  apply elem_of_assignments in Hin. simpl. tauto.
Qed.

Lemma assignments_ext h h' refs v :
  (∀ r, isAssignable h' r = isAssignable h r) →
  assignments h' refs v = assignments h refs v.
Proof.
  intros Hs. induction refs as [|r refs IH]; [reflexivity|].
  rewrite (assignments_cons h'), (assignments_cons h), IH.
  by rewrite !assignments_one, Hs.
Qed.

(** An object untouched by the assignments keeps its [current]. *)
Lemma objs_applyLog_other d h o :
  (∀ v, (RObject o, v) ∉ d) →
  objs (applyLog d h) !! o = objs h !! o.
Proof.
  revert h. induction d as [|[r w] d IH]; intros h Hd; [reflexivity|].
  change (objs (applyLog d (setCurrent r w h)) !! o = objs h !! o).
  rewrite IH.
  - destruct r as [| |f|o']; try reflexivity. simpl.
    rewrite lookup_insert_ne; [done|]. intros ->. eapply Hd. left.
  - intros v Hv. eapply Hd. right. exact Hv.
Qed.

(** All assignments carry the same value: an assigned object holds it. *)
Lemma objs_applyLog_assignments h refs v o :
  RObject o ∈ refs → isAssignable h (RObject o) = true →
  objs (applyLog (assignments h refs v) h) !! o = Some v.
Proof.
  intros Hin Ha.
  assert (Hgen : ∀ d h', Forall (λ a, a.2 = v) d →
            (objs h' !! o = Some v ∨ ∃ w, (RObject o, w) ∈ d) →
            objs (applyLog d h') !! o = Some v).
  { induction d as [|[r w] d IH]; intros h' Hall Hor.
    - destruct Hor as [?|[w Hw]]; [done|]. by apply elem_of_nil in Hw.
    - apply Forall_cons in Hall as [Hw Hall']. simpl in Hw. subst w.
      change (objs (applyLog d (setCurrent r v h')) !! o = Some v).
      apply IH; [done|].
      destruct (decide (r = RObject o)) as [->|Hne].
      + left. simpl. by rewrite lookup_insert_eq.
      + destruct Hor as [Hh|[w Hw]].
        * left. destruct r as [| |f|o']; try done. simpl.
          rewrite lookup_insert_ne; [done|]. congruence.
        * apply elem_of_cons in Hw as [[= <- <-]|Hw]; [done|]. right. eauto. }
  apply Hgen.
  - apply Forall_forall. intros [r w] Hrw. apply elem_of_assignments in Hrw. simpl. tauto.
  - right. exists v. by apply elem_of_assignments.
Qed.

(** [assignRef] never throws; it performs the one assignment, if any. *)
Lemma assignRef_spec r v h :
  assignRef r v h = Some (applyLog (assignments h [r] v) h).
Proof.
  rewrite assignments_one. destruct r as [| |f|o]; try reflexivity.
  unfold assignRef, assignRefIn. simpl.
  by destruct (bool_decide (is_Some (objs h !! o))).
Qed.

Lemma assignAll_spec refs v h :
  assignAll refs v h = Some (applyLog (assignments h refs v) h).
Proof.
  revert h. induction refs as [|r refs IH]; intros h; [reflexivity|].
  simpl. rewrite assignRef_spec. simpl. rewrite IH.
  rewrite (assignments_cons h r refs), applyLog_app.
  f_equal. f_equal. apply assignments_ext. intros r'.
  apply isAssignable_applyLog, assignments_assignable.
Qed.

Lemma diffAssignments_assignable h refs i previous el :
  Forall (λ a, isAssignable h a.1 = true) (diffAssignments h refs i previous el).
Proof.
  revert i. induction refs as [|r refs IH]; intros i; simpl; [constructor|].
  apply Forall_app. split; [|apply IH].
  destruct (strictNotEquals _ _); [|constructor].
  apply Forall_app. split; apply assignments_assignable.
Qed.

Lemma diffAssignments_ext h h' refs i previous el :
  (∀ r, isAssignable h' r = isAssignable h r) →
  diffAssignments h' refs i previous el = diffAssignments h refs i previous el.
Proof.
  intros Hs. revert i. induction refs as [|r refs IH]; intros i; [reflexivity|].
  simpl. rewrite IH. by rewrite !(assignments_ext h h').
Qed.

Lemma diffRefs_spec refs i previous el h :
  diffRefs refs i previous el h
  = Some (applyLog (diffAssignments h refs i previous el) h).
Proof.
  revert i h. induction refs as [|r refs IH]; intros i h; [reflexivity|].
  simpl. rewrite applyLog_app.
  destruct (strictNotEquals r _) eqn:Hne.
  - rewrite assignRef_spec. simpl. rewrite assignRef_spec. simpl.
    rewrite IH. rewrite applyLog_app. f_equal.
    set (h1 := applyLog _ (applyLog _ h)).
    assert (Hs : ∀ r', isAssignable h1 r' = isAssignable h r').
    { intros r'. unfold h1.
      rewrite isAssignable_applyLog by apply assignments_assignable.
      apply isAssignable_applyLog, assignments_assignable. }
    rewrite (diffAssignments_ext h h1) by done.
    unfold h1. rewrite (assignments_ext h (applyLog _ h)); [reflexivity|].
    intros r'. apply isAssignable_applyLog, assignments_assignable.
  - simpl. by rewrite IH.
Qed.

Lemma mergedRef_spec v s :
  mergedRef v s
  = Some {| element := v; didElementChange := true;
            previousRefs := previousRefs s; currentRefs := currentRefs s;
            effectDeps := effectDeps s; callbackMemo := callbackMemo s;
            renders := renders s;
            world := applyLog
                       (assignments (world s)
                          (if toBoolean v then currentRefs s else previousRefs s) v)
                       (world s) |}.
Proof. unfold mergedRef. by rewrite assignAll_spec. Qed.

Lemma refsEffect_spec refs s :
  refsEffect refs s
  = Some {| element := element s; didElementChange := didElementChange s;
            previousRefs := refs; currentRefs := currentRefs s;
            effectDeps := effectDeps s; callbackMemo := callbackMemo s;
            renders := renders s;
            world := if didElementChange s then world s
                     else applyLog
                            (diffAssignments (world s) refs 0 (previousRefs s) (element s))
                            (world s) |}.
Proof.
  unfold refsEffect. destruct (didElementChange s); simpl; [done|].
  by rewrite diffRefs_spec.
Qed.

Lemma depsEqual_same_length next prev :
  length next = length prev → depsEqual next prev = true → next = prev.
Proof.
  revert prev. induction next as [|n next IH]; intros [|p prev] Hlen Heq;
    try done. simpl in *.
  apply andb_true_iff in Heq as [Hnp Heq]. apply bool_decide_eq_true in Hnp.
  f_equal; [done|]. apply IH; [lia|done].
Qed.

(** What a cycle with a change of the element leaves behind. *)
Lemma cycle_element_change refs c s :
  c ≠ Unchanged →
  ∃ callback s',
    cycle refs c s = Some (callback, s') ∧
    world s'
    = applyLog (detachments (world s) (previousRefs s) c
                ++ attachments (world s) refs c) (world s) ∧
    element s' = match c with Mounted n | Swapped n => VElement n | _ => VNull end ∧
    currentRefs s' = refs ∧
    didElementChange s' = false.
Proof.
  intros Hc. unfold cycle, useMergeRefs.
  destruct (useCallback _ _ _) as [callback memo].
  unfold commit. destruct c as [|n| |n]; [done| | |]; simpl;
    repeat (rewrite mergedRef_spec; simpl);
    destruct (negb (areHookInputsEqual _ _)); simpl;
    rewrite ?refsEffect_spec; simpl;
    (eexists _, _; split; [reflexivity|]); simpl;
    rewrite ?app_nil_r; repeat split; try reflexivity.
  all: rewrite applyLog_app; f_equal; apply assignments_ext; intros r;
    apply isAssignable_applyLog, assignments_assignable.
Qed.

(** What a cycle without a change of the element leaves behind when the
    first layout effect fires. *)
Lemma cycle_refs_change refs s :
  didElementChange s = false →
  areHookInputsEqual refs (effectDeps s) = false →
  ∃ callback s',
    cycle refs Unchanged s = Some (callback, s') ∧
    world s'
    = applyLog (diffAssignments (world s) refs 0 (previousRefs s) (element s))
        (world s) ∧
    element s' = element s ∧
    previousRefs s' = refs ∧
    currentRefs s' = refs ∧
    didElementChange s' = false.
Proof.
  intros Hd Hfire. unfold cycle, useMergeRefs.
  destruct (useCallback _ _ _) as [callback memo].
  unfold commit. rewrite Hfire. simpl. rewrite refsEffect_spec. simpl.
  rewrite Hd. eexists _, _. split; [reflexivity|]. done.
Qed.

Lemma elem_of_diffAssignments h refs i previous el r v :
  (r, v) ∈ diffAssignments h refs i previous el ↔
  ∃ j new,
    refs !! j = Some new ∧
    new ≠ default RUndefined (previous !! (i + j)) ∧
    isAssignable h r = true ∧
    ((r = default RUndefined (previous !! (i + j)) ∧ v = VNull)
     ∨ (r = new ∧ v = el)).
Proof.
  revert i. induction refs as [|x refs IH]; intros i; simpl.
  - split; [by intros ?%elem_of_nil|]. by intros (j & new & ? & _).
  - rewrite elem_of_app, IH. split.
    + intros [Hhd|(j & new & Hj & Hne & Ha & Hor)].
      * unfold strictNotEquals in Hhd. case_bool_decide as Hx; simpl in Hhd;
          [by apply elem_of_nil in Hhd|].
        exists 0, x. rewrite Nat.add_0_r. split; [done|]. split; [done|].
        apply elem_of_app in Hhd as [Hin|Hin];
          apply elem_of_assignments in Hin as (Hr%list_elem_of_singleton & Ha & ->);
          subst r; split; auto.
      * exists (S j), new. rewrite Nat.add_succ_r. done.
    + intros (j & new & Hj & Hne & Ha & Hor). destruct j as [|j].
      * left. rewrite Nat.add_0_r in *. simpl in Hj. injection Hj as ->.
        unfold strictNotEquals. rewrite bool_decide_eq_false_2 by done. simpl.
        apply elem_of_app. destruct Hor as [[-> ->]|[-> ->]]; [left|right];
          apply elem_of_assignments; (split; [apply list_elem_of_singleton|]); done.
      * right. exists j, new. rewrite Nat.add_succ_r in *. done.
Qed.

Lemma useCallback_memo fresh c :
  useCallback fresh [] (Some (c, [])) = (c, Some (c, [])).
Proof. reflexivity. Qed.

(** A render cycle always completes. *)
Lemma cycle_total refs c s :
  ∃ s', cycle refs c s = Some ((useCallback (renders s) [] (callbackMemo s)).1, s') ∧
        callbackMemo s' = (useCallback (renders s) [] (callbackMemo s)).2 ∧
        effectDeps s' = Some refs ∧
        currentRefs s' = refs ∧
        didElementChange s' = false ∧
        (previousRefs s' = refs
         ∨ previousRefs s' = previousRefs s ∧ areHookInputsEqual refs (effectDeps s) = true).
Proof.
  unfold cycle, useMergeRefs.
  destruct (useCallback _ _ _) as [callback memo]. simpl.
  unfold commit.
  assert (∃ s1, callMergedRef (refCalls c)
      {| element := element s; didElementChange := didElementChange s;
         previousRefs := previousRefs s; currentRefs := refs;
         effectDeps := Some refs; callbackMemo := memo;
         renders := S (renders s); world := world s |} = Some s1 ∧
      previousRefs s1 = previousRefs s ∧ currentRefs s1 = refs ∧
      effectDeps s1 = Some refs ∧ callbackMemo s1 = memo) as (s1 & -> & Hp & Hc & He & Hm).
  { destruct c; simpl; repeat (rewrite mergedRef_spec; simpl);
      (eexists; split; [reflexivity|]; simpl; auto). }
  simpl. destruct (areHookInputsEqual refs (effectDeps s)); simpl.
  - eexists. split; [reflexivity|]. simpl. auto 10.
  - rewrite refsEffect_spec. simpl. eexists. split; [reflexivity|]. simpl. auto 10.
Qed.

(** Between the cycles of an instance whose list keeps its length, the
    instance is [settled]. *)
Lemma cycle_settled refs c s callback s' :
  effectDeps s = None ∨ settled s ∧ length (previousRefs s) = length refs →
  cycle refs c s = Some (callback, s') →
  settled s' ∧ previousRefs s' = refs.
Proof.
  intros Hpre Hcyc.
  destruct (cycle_total refs c s) as (s2 & Hc2 & _ & He & Hcur & Hd & Hprev).
  rewrite Hcyc in Hc2. injection Hc2 as _ ->.
  assert (previousRefs s2 = refs) as Hp.
  { destruct Hprev as [?|[Hsame Heq]]; [done|].
    destruct Hpre as [Hnone|[(_ & Hdeps & _) Hlen]].
    - by rewrite Hnone in Heq.
    - rewrite Hdeps in Heq. simpl in Heq.
      rewrite Hsame. symmetry. by apply depsEqual_same_length. }
  unfold settled. by rewrite He, Hcur, Hp.
Qed.

Lemma run_settled n history s callbacks s' :
  effectDeps s = None ∨ settled s ∧ length (previousRefs s) = n →
  Forall (λ x, length x.1 = n) history →
  history ≠ [] →
  run history s = Some (callbacks, s') →
  settled s' ∧ length (previousRefs s') = n.
Proof.
  revert s callbacks. induction history as [|[refs c] history IH];
    intros s callbacks Hpre Hall Hne Hrun; [done|].
  apply Forall_cons in Hall as [Hlen Hall]. simpl in Hlen, Hrun.
  destruct (cycle refs c s) as [[callback s1]|] eqn:Hcyc; [|done]. simpl in Hrun.
  destruct (run history s1) as [[cbs s2]|] eqn:Hrest; [|done]. simpl in Hrun.
  injection Hrun as <- <-.
  assert (settled s1 ∧ previousRefs s1 = refs) as [Hs1 Hp1].
  { eapply cycle_settled; [|exact Hcyc]. rewrite Hlen. exact Hpre. }
  destruct history as [|x history].
  - simpl in Hrest. injection Hrest as _ <-. by rewrite Hp1.
  - eapply IH; [| exact Hall | done | exact Hrest].
    right. by rewrite Hp1.
Qed.

Lemma run_callbacks c history s :
  callbackMemo s = Some (c, []) →
  ∃ s', run history s = Some (replicate (length history) c, s').
Proof.
  revert s. induction history as [|[refs ch] history IH]; intros s Hm; simpl.
  - eauto.
  - destruct (cycle_total refs ch s) as (s1 & -> & Hm1 & _).
    rewrite Hm in Hm1 |- *. rewrite useCallback_memo in Hm1 |- *. simpl.
    destruct (IH s1 Hm1) as (s2 & ->). simpl. eauto.
Qed.

Lemma NoDup_assignments h refs v : NoDup refs → NoDup (assignments h refs v).
Proof.
  intros Hnd. unfold assignments. apply NoDup_fmap_2.
  - intros x y. congruence.
  - by apply NoDup_filter.
Qed.

Lemma isNoRef_not_assignable h r : isNoRef h r → isAssignable h r = false.
Proof.
  intros [->|[->|(o & -> & Ho)]]; try reflexivity. simpl.
  apply bool_decide_eq_false. rewrite Ho. by intros [? ?].
Qed.





(** The list of the last render is the current list. *)
Lemma run_last earlier previous c s0 callbacks s :
  run (earlier ++ [(previous, c)]) s0 = Some (callbacks, s) →
  currentRefs s = previous.
Proof.
  revert s0 callbacks. induction earlier as [|[refs0 c0] earlier IH];
    intros s0 callbacks Hrun; simpl in Hrun.
  - destruct (cycle_total previous c s0) as (s1 & Hcyc & _ & _ & Hcur & _).
    rewrite Hcyc in Hrun. simpl in Hrun. by injection Hrun as _ <-.
  - destruct (cycle refs0 c0 s0) as [[cb s1]|]; [|done]. simpl in Hrun.
    destruct (run (earlier ++ [(previous, c)]) s1) as [[cbs s2]|] eqn:Hrest;
      [|done].
    simpl in Hrun. injection Hrun as _ <-. by eapply IH.
Qed.

(** An instance whose renders all passed lists of one length has recorded
    the list of its last render. *)
Lemma run_recorded h earlier previous c callbacks s :
  run (earlier ++ [(previous, c)]) (init h) = Some (callbacks, s) →
  Forall (λ x, length x.1 = length previous) earlier →
  settled s ∧ previousRefs s = previous.
Proof.
  intros Hrun Hlen.
  destruct (run_settled (length previous) (earlier ++ [(previous, c)])
              (init h) callbacks s) as [Hs _].
  - by left.
  - apply Forall_app. split; [done|]. by constructor.
  - by destruct earlier.
  - done.
  - split; [done|]. destruct Hs as (_ & _ & <-). by eapply run_last.
Qed.


(** C2.  Every render of an instance returns the callback created by its
    first render, whatever ref lists the renders pass and whatever happens
    to the element. *)
Theorem merged_ref_callback_stable (h : heap)
    (history : list (list ref * elementChange)) :
  ∃ s, run history (init h) = Some (replicate (length history) 0, s).
Proof.
  destruct history as [|[refs c] history]; simpl; [eauto|].
  destruct (cycle_total refs c (init h)) as (s1 & -> & Hm & _). simpl in *.
  destruct (run_callbacks 0 history s1 Hm) as (s2 & ->). simpl. eauto.
Qed.

(** C3.  In a render cycle in which the element changes, whatever the ref
    list of the render (changed or not), only the calls of the merged ref
    assign: the world after the cycle is the world after those calls, the
    list diff of the first layout effect adds no [null] and no assignment
    of the element.  The previous refs get one [null] per entry on a
    detach, the current refs one assignment of the element per entry on an
    attach; so with lists free of repetitions no assignment occurs twice in
    the cycle. *)
Theorem element_change_skips_list_diff (s : state) (refs : list ref)
    (c : elementChange) :
  c ≠ Unchanged →
  ∃ callback s' s1,
    cycle refs c s = Some (callback, s') ∧
    callMergedRef (refCalls c) (useMergeRefs refs s).2 = Some s1 ∧
    world s' = world s1 ∧
    log (world s')
    = log (world s) ++ detachments (world s) (previousRefs s) c
                    ++ attachments (world s) refs c ∧
    (NoDup (previousRefs s) → NoDup refs →
     NoDup (detachments (world s) (previousRefs s) c ++ attachments (world s) refs c)).
Proof.
  intros Hc.
  destruct (cycle_element_change refs c s Hc) as (callback & s' & Hcyc & Hw & _).
  exists callback, s'.
  assert (∃ s1, callMergedRef (refCalls c) (useMergeRefs refs s).2 = Some s1 ∧
                world s' = world s1) as (s1 & Hs1 & Hws).
  { revert Hcyc. unfold cycle, useMergeRefs.
    destruct (useCallback _ _ _) as [cb memo]. simpl. unfold commit.
    destruct (callMergedRef _ _) as [s1|] eqn:Hcalls; [|done]. simpl.
    assert (didElementChange s1 = true) as Hflag.
    { revert Hcalls. destruct c; [done|..]; simpl;
        repeat (rewrite mergedRef_spec; simpl); by intros [= <-]. }
    destruct (negb (areHookInputsEqual _ _)); simpl.
    - rewrite refsEffect_spec. simpl. rewrite Hflag. intros [= _ <-]. eauto.
    - intros [= _ <-]. eauto. }
  exists s1. split; [done|]. split; [done|]. split; [done|].
  split; [by rewrite Hw, log_applyLog, app_assoc|].
  intros Hnp Hnr. apply NoDup_app. split_and!.
  - destruct c; simpl; try apply NoDup_nil_2; by apply NoDup_assignments.
  - intros [r v] Hdet Hatt. destruct c; simpl in *;
      try (by apply elem_of_nil in Hdet); try (by apply elem_of_nil in Hatt).
    apply elem_of_assignments in Hdet as (_ & _ & ->).
    by apply elem_of_assignments in Hatt as (_ & _ & ?).
  - destruct c; simpl; try apply NoDup_nil_2; by apply NoDup_assignments.
Qed.

(** C4 (as amended).  In a render cycle in which the element changes, the
    merged ref assigns the new element to every ref of the current list on
    a mount or a swap, and [null] to every ref of the recorded list
    [previousRefs.current] (the list the first layout effect recorded
    last) on an unmount or a swap; no ref of the list concerned is
    skipped.  In an instance whose renders have all passed lists of one
    length, an unmount in a render that passes the list of the render
    before assigns [null] to every ref of the current list. *)
Theorem element_change_assigns_every_ref (s : state) (refs : list ref)
    (c : elementChange) :
  c ≠ Unchanged →
  ∃ callback s' delta,
    cycle refs c s = Some (callback, s') ∧
    log (world s') = log (world s) ++ delta ∧
    (∀ n, c = Mounted n ∨ c = Swapped n →
       element s' = VElement n ∧
       ∀ r, r ∈ refs → isAssignable (world s) r = true →
         (r, VElement n) ∈ delta ∧
         ∀ o, r = RObject o → objs (world s') !! o = Some (VElement n)) ∧
    (c = Unmounted ∨ (∃ n, c = Swapped n) →
       ∀ r, r ∈ previousRefs s → isAssignable (world s) r = true →
         (r, VNull) ∈ delta) ∧
    (c = Unmounted →
       element s' = VNull ∧
       (∀ o, RObject o ∈ previousRefs s → isAssignable (world s) (RObject o) = true →
          objs (world s') !! o = Some VNull) ∧
       (∀ h earlier c0 callbacks,
          run (earlier ++ [(refs, c0)]) (init h) = Some (callbacks, s) →
          Forall (λ x, length x.1 = length refs) earlier →
          ∀ r, r ∈ refs → isAssignable (world s) r = true → (r, VNull) ∈ delta)).
Proof.
  intros Hc.
  destruct (cycle_element_change refs c s Hc) as (callback & s' & Hcyc & Hw & He & _).
  exists callback, s',
    (detachments (world s) (previousRefs s) c ++ attachments (world s) refs c).
  split; [done|]. split; [by rewrite Hw, log_applyLog|].
  split; [|split].
  - intros n Hn. split; [by destruct Hn as [-> | ->]|].
    intros r Hr Ha. split.
    + apply elem_of_app. right.
      destruct Hn as [-> | ->]; by apply elem_of_assignments.
    + intros o ->. rewrite Hw, applyLog_app.
      set (h1 := applyLog (detachments _ _ _) (world s)).
      assert (Hs : ∀ r', isAssignable h1 r' = isAssignable (world s) r').
      { intros r'. apply isAssignable_applyLog.
        destruct c; simpl; try constructor; apply assignments_assignable. }
      assert (attachments (world s) refs c = assignments h1 refs (VElement n)) as ->.
      { rewrite (assignments_ext (world s) h1) by done. by destruct Hn as [-> | ->]. }
      apply objs_applyLog_assignments; [done|]. by rewrite Hs.
  - intros Hu r Hr Ha. apply elem_of_app. left.
    destruct Hu as [-> | [n ->]]; by apply elem_of_assignments.
  - intros ->. simpl in *. rewrite app_nil_r in *. split; [done|]. split.
    + intros o Ho Ha. rewrite Hw. by apply objs_applyLog_assignments.
    + intros h earlier c0 callbacks Hrun Hlen r Hr Ha.
      destruct (run_recorded h earlier refs c0 callbacks s Hrun Hlen) as [_ Hp].
      rewrite Hp. by apply elem_of_assignments.
Qed.

(** C10 (as amended).  Assigning any value to [null], to [undefined] or to
    an object without an own property [current] that inherits
    [hasOwnProperty], as every ordinary object does, neither throws nor
    changes anything; such an entry in a ref list makes no difference to
    the loop over the list, and the merged ref callback completes whatever
    its lists of such entries and refs hold, without an assignment to the
    entry and without giving it a [current]. *)
Theorem assignRef_ignores_non_refs (inherits : nat → bool) (r : ref)
    (v : value) (h : heap) :
  r = RNull ∨ r = RUndefined
  ∨ (∃ o, r = RObject o ∧ objs h !! o = None ∧ inherits o = true) →
  assignRefIn inherits r v h = Some h ∧
  (∀ before after, ∃ h',
     assignAll (before ++ r :: after) v h = Some h' ∧
     assignAll (before ++ after) v h = Some h') ∧
  (∀ w s, world s = h →
     ∃ s', mergedRef w s = Some s' ∧
           (∀ x, (r, x) ∉ drop (length (log h)) (log (world s'))) ∧
           (∀ o, r = RObject o → objs (world s') !! o = None)).
Proof.
  intros Hr.
  assert (assignRefIn inherits r v h = Some h) as Hnoop.
  { destruct Hr as [->|[->|(o & -> & Ho & Hi)]]; try reflexivity.
    unfold assignRefIn. simpl. rewrite Hi. simpl.
    rewrite bool_decide_eq_false_2; [done|]. rewrite Ho. by intros [? ?]. }
  assert (isNoRef h r) as Hno.
  { destruct Hr as [->|[->|(o & -> & Ho & _)]]; [by left|by right; left|].
    right. right. eauto. }
  apply isNoRef_not_assignable in Hno. split; [done|]. split.
  - intros before after. rewrite !assignAll_spec. eexists. split; [|reflexivity].
    by rewrite !assignments_app, (assignments_cons h r after), assignments_one, Hno.
  - intros w s <-. rewrite mergedRef_spec. eexists. split; [reflexivity|]. simpl.
    assert (∀ x, (r, x) ∉ assignments (world s)
                   (if toBoolean w then currentRefs s else previousRefs s) w) as Hnot.
    { intros x (_ & Ha & _)%elem_of_assignments. congruence. }
    split.
    + intros x. by rewrite log_applyLog, drop_app_length.
    + intros o ->. rewrite objs_applyLog_other by done.
      simpl in Hno. apply bool_decide_eq_false in Hno.
      destruct (objs (world s) !! o) eqn:Ho; [|done]. destruct Hno. eauto.
Qed.

(** C10, as stated, fails: [assignRef] calls [hasOwnProperty] on the ref
    itself, so an object without own [current] that does not inherit the
    method, such as one made by [Object.create( null )], makes it throw. *)
Lemma assignRef_null_prototype_counterexample :
  let h := {| log := []; objs := ∅ |} in
  let inherits := λ o, negb (Nat.eqb o 4) in
  objs h !! 4 = None ∧
  assignRefIn inherits (RObject 4) (VElement 7) h = None.
Proof. split; reflexivity. Qed.


(** C4, as stated, fails.  After a first cycle mounting element 7 with the
    callback ref 1, a render passing ref 2 instead in which the element
    unmounts calls ref 1 with [null]; ref 2, the whole of the current list,
    is never called. *)
Lemma unmount_counterexample :
  let a := RFunction 1 in
  let b := RFunction 2 in
  let h := {| log := []; objs := ∅ |} in
  ∃ callbacks s callback s',
    run [([a], Mounted 7)] (init h) = Some (callbacks, s) ∧
    cycle [b] Unmounted s = Some (callback, s') ∧
    currentRefs s' = [b] ∧
    element s' = VNull ∧
    isAssignable (world s) b = true ∧
    log (world s') = log (world s) ++ [(a, VNull)] ∧
    ∀ v, (b, v) ∉ log (world s').
Proof.
  intros a b h. eexists _, _, _, _. split; [vm_compute; reflexivity|].
  split; [vm_compute; reflexivity|]. simpl.
  split_and!; try reflexivity.
  intros v Hin. repeat (apply elem_of_cons in Hin as [[=]|Hin]).
  by apply elem_of_nil in Hin.
Qed.


(** The theorem for C3 at work: the element is swapped in a render that
    also replaces the ref. *)
Lemma element_change_skips_list_diff_witness :
  let s :=
    {| element := VElement 7; didElementChange := false;
       previousRefs := [RFunction 1]; currentRefs := [RFunction 1];
       effectDeps := Some [RFunction 1];
       callbackMemo := Some (0, []); renders := 1;
       world := {| log := [(RFunction 1, VElement 7)]; objs := ∅ |} |} in
  let refs := [RFunction 2] in
  let c := Swapped 8 in
  c ≠ Unchanged ∧
  ∃ callback s' s1,
    cycle refs c s = Some (callback, s') ∧
    callMergedRef (refCalls c) (useMergeRefs refs s).2 = Some s1 ∧
    world s' = world s1 ∧
    log (world s')
    = log (world s) ++ detachments (world s) (previousRefs s) c
                    ++ attachments (world s) refs c ∧
    (NoDup (previousRefs s) → NoDup refs →
     NoDup (detachments (world s) (previousRefs s) c ++ attachments (world s) refs c)).
Proof.
  intros s refs c.
  assert (c ≠ Unchanged) as Hyp by discriminate.
  split; [exact Hyp|].
  apply (element_change_skips_list_diff s refs c Hyp).
Defined.

(** The theorem for C4 at work: an unmount with an unchanged list of a
    callback ref and an object ref. *)
Lemma element_change_assigns_every_ref_witness :
  let s :=
    {| element := VElement 7; didElementChange := false;
       previousRefs := [RFunction 1; RObject 3];
       currentRefs := [RFunction 1; RObject 3];
       effectDeps := Some [RFunction 1; RObject 3];
       callbackMemo := Some (0, []); renders := 1;
       world := {| log := [(RFunction 1, VElement 7); (RObject 3, VElement 7)];
                   objs := {[ 3 := VElement 7 ]} |} |} in
  let refs := [RFunction 1; RObject 3] in
  let c := Unmounted in
  c ≠ Unchanged ∧
  ∃ callback s' delta,
    cycle refs c s = Some (callback, s') ∧
    log (world s') = log (world s) ++ delta ∧
    (∀ n, c = Mounted n ∨ c = Swapped n →
       element s' = VElement n ∧
       ∀ r, r ∈ refs → isAssignable (world s) r = true →
         (r, VElement n) ∈ delta ∧
         ∀ o, r = RObject o → objs (world s') !! o = Some (VElement n)) ∧
    (c = Unmounted ∨ (∃ n, c = Swapped n) →
       ∀ r, r ∈ previousRefs s → isAssignable (world s) r = true →
         (r, VNull) ∈ delta) ∧
    (c = Unmounted →
       element s' = VNull ∧
       (∀ o, RObject o ∈ previousRefs s → isAssignable (world s) (RObject o) = true →
          objs (world s') !! o = Some VNull) ∧
       (∀ h earlier c0 callbacks,
          run (earlier ++ [(refs, c0)]) (init h) = Some (callbacks, s) →
          Forall (λ x, length x.1 = length refs) earlier →
          ∀ r, r ∈ refs → isAssignable (world s) r = true → (r, VNull) ∈ delta)).
Proof.
  intros s refs c.
  assert (c ≠ Unchanged) as Hyp by discriminate.
  split; [exact Hyp|].
  apply (element_change_assigns_every_ref s refs c Hyp).
Defined.

(** The theorem for C10 at work: an ordinary object without [current] in
    a heap where another object has one. *)
Lemma assignRef_ignores_non_refs_witness :
  let inherits := ordinary in
  let h := {| log := []; objs := {[ 3 := VUndefined ]} |} in
  let r := RObject 4 in
  let v := VElement 7 in
  (r = RNull ∨ r = RUndefined
   ∨ (∃ o, r = RObject o ∧ objs h !! o = None ∧ inherits o = true)) ∧
  assignRefIn inherits r v h = Some h ∧
  (∀ before after, ∃ h',
     assignAll (before ++ r :: after) v h = Some h' ∧
     assignAll (before ++ after) v h = Some h') ∧
  (∀ w s, world s = h →
     ∃ s', mergedRef w s = Some s' ∧
           (∀ x, (r, x) ∉ drop (length (log h)) (log (world s'))) ∧
           (∀ o, r = RObject o → objs (world s') !! o = None)).
Proof.
  intros inherits h r v.
  assert (r = RNull ∨ r = RUndefined
          ∨ (∃ o, r = RObject o ∧ objs h !! o = None ∧ inherits o = true)) as Hyp.
  { right. right. exists 4. repeat split. }
  split; [exact Hyp|].
  apply (assignRef_ignores_non_refs inherits r v h Hyp).
Defined.

(** *** Further facts about the hook *)

Lemma depsEqual_refl l : depsEqual l l = true.
Proof.
  induction l as [|x l IH]; [done|]. simpl.
  by rewrite bool_decide_eq_true_2.
Qed.

(** A cycle in which neither the element changes nor the first layout
    effect fires. *)
Lemma cycle_no_fire refs s :
  areHookInputsEqual refs (effectDeps s) = true →
  ∃ callback s',
    cycle refs Unchanged s = Some (callback, s') ∧
    world s' = world s ∧
    element s' = element s ∧
    previousRefs s' = previousRefs s ∧
    currentRefs s' = refs ∧
    effectDeps s' = Some refs ∧
    didElementChange s' = false.
Proof.
  intros Heq. unfold cycle, useMergeRefs.
  destruct (useCallback _ _ _) as [callback memo].
  unfold commit. rewrite Heq. simpl. eexists _, _. split; [reflexivity|]. done.
Qed.

Lemma diffAssignments_first h refs i el :
  diffAssignments h refs i [] el = assignments h refs el.
Proof.
  revert i. induction refs as [|r refs IH]; intros i; [done|].
  cbn [diffAssignments]. rewrite lookup_nil.
  change (default RUndefined None) with RUndefined.
  rewrite IH, (assignments_cons h r refs). f_equal.
  unfold strictNotEquals. case_bool_decide as Hr; cbn [negb].
  - subst r. by rewrite assignments_one.
  - by rewrite (assignments_one h RUndefined).
Qed.

Lemma run_app l1 l2 s :
  run (l1 ++ l2) s
  = '(c1, s1) ← run l1 s; '(c2, s2) ← run l2 s1; Some (c1 ++ c2, s2).
Proof.
  revert s. induction l1 as [|[refs c] l1 IH]; intros s; simpl.
  - by destruct (run l2 s) as [[? ?]|].
  - destruct (cycle refs c s) as [[cb s1]|]; [|done]. simpl.
    rewrite IH. destruct (run l1 s1) as [[c1 s2]|]; [|done]. simpl.
    by destruct (run l2 s2) as [[? ?]|].
Qed.

(** Every assignment of a cycle goes to an entry of the render's list or
    of the previous list. *)
Lemma cycle_delta refs c s :
  ∃ callback s' delta,
    cycle refs c s = Some (callback, s') ∧
    world s' = applyLog delta (world s) ∧
    Forall (λ a, (a.1 ∈ refs ∨ a.1 ∈ previousRefs s)
                 ∧ isAssignable (world s) a.1 = true) delta ∧
    (previousRefs s' = refs ∨ previousRefs s' = previousRefs s).
Proof.
  assert (c = Unchanged ∨ c ≠ Unchanged) as [->|Hc]
    by (destruct c; [left|right..]; done).
  - unfold cycle, useMergeRefs.
    destruct (useCallback _ _ _) as [callback memo].
    unfold commit. simpl.
    destruct (areHookInputsEqual refs (effectDeps s)); simpl.
    + exists callback. eexists. exists []. split; [reflexivity|]. simpl. auto.
    + rewrite refsEffect_spec. simpl. destruct (didElementChange s).
      * exists callback. eexists. exists []. split; [reflexivity|]. simpl. auto.
      * exists callback. eexists. eexists. split; [reflexivity|]. simpl.
        split; [reflexivity|]. split; [|auto].
        apply Forall_forall. intros [r v] Hin.
        apply elem_of_diffAssignments in Hin as (j & new & Hj & _ & Ha & Hor).
        simpl in *. split; [|done]. destruct Hor as [[Hr _]|[-> _]].
        -- right. destruct (previousRefs s !! j) as [old|] eqn:Hold;
             simpl in Hr; subst r; [|done].
           by eapply list_elem_of_lookup_2.
        -- left. by eapply list_elem_of_lookup_2.
  - destruct (cycle_element_change refs c s Hc) as (callback & s' & Hcyc & Hw & _).
    destruct (cycle_total refs c s) as (s2 & Hc2 & _ & _ & _ & _ & Hprev).
    rewrite Hcyc in Hc2. injection Hc2 as _ <-.
    exists callback, s'. eexists. split; [done|]. split; [exact Hw|]. split.
    + apply Forall_forall. intros [r v] Hin. simpl.
      apply elem_of_app in Hin as [Hin|Hin].
      * destruct c; simpl in Hin; try (by apply elem_of_nil in Hin);
          apply elem_of_assignments in Hin; tauto.
      * destruct c; simpl in Hin; try (by apply elem_of_nil in Hin);
          apply elem_of_assignments in Hin; tauto.
    + tauto.
Qed.

Lemma cycle_same_refs s :
  settled s →
  ∃ callback s',
    cycle (previousRefs s) Unchanged s = Some (callback, s') ∧
    world s' = world s ∧
    element s' = element s ∧
    previousRefs s' = previousRefs s ∧
    settled s'.
Proof.
  intros (Hd & Hdeps & Hcur).
  destruct (cycle_no_fire (previousRefs s) s)
    as (callback & s' & Hcyc & Hw & He & Hp & Hc & Hdeps' & Hd').
  { rewrite Hdeps. simpl. apply depsEqual_refl. }
  exists callback, s'. split_and!; try done.
  unfold settled. by rewrite Hd', Hdeps', Hc, Hp.
Qed.

Lemma run_rerenders k s :
  settled s →
  ∃ callbacks s',
    run (replicate k (previousRefs s, Unchanged)) s = Some (callbacks, s') ∧
    world s' = world s ∧
    element s' = element s ∧
    previousRefs s' = previousRefs s ∧
    settled s'.
Proof.
  revert s. induction k as [|k IH]; intros s Hs; simpl.
  - eexists _, _. split; [reflexivity|]. done.
  - destruct (cycle_same_refs s Hs) as (cb & s1 & -> & Hw1 & He1 & Hp1 & Hs1).
    simpl. destruct (IH s1 Hs1) as (cbs & s2 & Hrun & Hw2 & He2 & Hp2 & Hs2).
    rewrite Hp1 in Hrun. rewrite Hrun. simpl.
    eexists _, _. split; [reflexivity|].
    split_and!; [congruence..|done].
Qed.


(** X1.  A render that passes the same refs as the render before, with the
    element unchanged, assigns nothing: no ref is called, no object is
    written, and the instance stays as it was between cycles. *)
Theorem rerender_same_refs_assigns_nothing (s : state) :
  settled s →
  ∃ callback s',
    cycle (previousRefs s) Unchanged s = Some (callback, s') ∧
    world s' = world s ∧
    element s' = element s ∧
    previousRefs s' = previousRefs s ∧
    settled s'.
Proof. apply cycle_same_refs. Qed.

Lemma rerender_same_refs_assigns_nothing_witness :
  let s :=
    {| element := VElement 7; didElementChange := false;
       previousRefs := [RFunction 1; RObject 3];
       currentRefs := [RFunction 1; RObject 3];
       effectDeps := Some [RFunction 1; RObject 3];
       callbackMemo := Some (0, []); renders := 1;
       world := {| log := [(RFunction 1, VElement 7); (RObject 3, VElement 7)];
                   objs := {[ 3 := VElement 7 ]} |} |} in
  settled s ∧
  ∃ callback s',
    cycle (previousRefs s) Unchanged s = Some (callback, s') ∧
    world s' = world s ∧
    element s' = element s ∧
    previousRefs s' = previousRefs s ∧
    settled s'.
Proof.
  intros s.
  assert (settled s) as Hyp by (repeat split).
  split; [exact Hyp|].
  apply (rerender_same_refs_assigns_nothing s Hyp).
Defined.

(** X2.  The first render of an instance whose element is not attached in
    that commit assigns [undefined], the initial [element.current], to
    every ref of the list, in list order, and to nothing else. *)
Theorem first_render_without_element (h : heap) (refs : list ref) :
  ∃ callback s',
    cycle refs Unchanged (init h) = Some (callback, s') ∧
    log (world s') = log h ++ assignments h refs VUndefined ∧
    element s' = VUndefined ∧
    previousRefs s' = refs.
Proof.
  destruct (cycle_refs_change refs (init h)) as (callback & s' & Hcyc & Hw & He & Hp & _);
    [done..|].
  exists callback, s'. split; [done|]. simpl in *.
  rewrite Hw, log_applyLog, diffAssignments_first. done.
Qed.

(** X3.  Over the life of an element under a list that stays the same:
    mounted by the first render, kept through any number of re-renders,
    then unmounted.  Every ref of the list is assigned the element once,
    then [null] once, in list order, and nothing else is ever assigned;
    an object ref ends up holding [null]. *)
Theorem stable_list_lifetime (h : heap) (refs : list ref) (n k : nat) :
  ∃ callbacks s,
    run ((refs, Mounted n) :: replicate k (refs, Unchanged) ++ [(refs, Unmounted)])
      (init h)
    = Some (callbacks, s) ∧
    log (world s)
    = log h ++ assignments h refs (VElement n) ++ assignments h refs VNull ∧
    element s = VNull ∧
    Forall (λ r, ∀ o, r = RObject o → isAssignable h r = true →
                      objs (world s) !! o = Some VNull) refs.
Proof.
  destruct (cycle_element_change refs (Mounted n) (init h))
    as (cb1 & s1 & Hc1 & Hw1 & _); [done|].
  destruct (cycle_settled refs (Mounted n) (init h) cb1 s1) as [Hs1 Hp1];
    [by left | done |].
  destruct (run_rerenders k s1 Hs1) as (cbs & s2 & Hrun & Hw2 & _ & Hp2 & Hs2).
  destruct (cycle_element_change refs Unmounted s2)
    as (cb3 & s3 & Hc3 & Hw3 & He3 & _); [done|].
  simpl in Hw1, Hw3. rewrite app_nil_r in Hw3.
  assert (Hsame : ∀ r, isAssignable (world s2) r = isAssignable h r).
  { intros r. rewrite Hw2, Hw1.
    apply isAssignable_applyLog, assignments_assignable. }
  rewrite Hp2, Hp1, (assignments_ext h (world s2)) in Hw3 by done.
  exists (cb1 :: cbs ++ [cb3]), s3. split; [|split; [|split]].
  - change (run ([(refs, Mounted n)] ++ replicate k (refs, Unchanged)
                 ++ [(refs, Unmounted)]) (init h) = Some (cb1 :: cbs ++ [cb3], s3)).
    rewrite run_app. simpl. rewrite Hc1. simpl.
    rewrite run_app. rewrite <- Hp1, Hrun. simpl. rewrite Hp1, Hc3. done.
  - rewrite Hw3, log_applyLog, Hw2, Hw1, log_applyLog. by rewrite <- app_assoc.
  - done.
  - apply Forall_forall. intros r Hr o -> Ha. rewrite Hw3.
    rewrite <- (assignments_ext h (world s2)) by done.
    apply objs_applyLog_assignments; [done|]. by rewrite Hsame.
Qed.

(** X4.  Whatever the history of render cycles, the hook assigns only to
    refs it was given: every assignment made goes to an entry of one of
    the lists passed by the renders, or of the list recorded before. *)
Theorem only_given_refs_assigned (history : list (list ref * elementChange))
    (s : state) :
  ∃ callbacks s' delta,
    run history s = Some (callbacks, s') ∧
    log (world s') = log (world s) ++ delta ∧
    Forall (λ a, a.1 ∈ previousRefs s ∨ ∃ refs c, (refs, c) ∈ history ∧ a.1 ∈ refs)
      delta.
Proof.
  revert s. induction history as [|[refs c] history IH]; intros s.
  - exists [], s, []. split; [done|]. split; [by rewrite app_nil_r|]. constructor.
  - destruct (cycle_delta refs c s) as (cb & s1 & d1 & Hcyc & Hw1 & Hd1 & Hp1).
    destruct (IH s1) as (cbs & s2 & d2 & Hrun & Hlog2 & Hd2).
    exists (cb :: cbs), s2, (d1 ++ d2). simpl. rewrite Hcyc. simpl.
    rewrite Hrun. simpl. split; [done|]. split.
    + by rewrite Hlog2, Hw1, log_applyLog, app_assoc.
    + apply Forall_app. split.
      * eapply Forall_impl; [exact Hd1|]. intros a [[Ha|Ha] _]; [|by left].
        right. exists refs, c. split; [left|done].
      * eapply Forall_impl; [exact Hd2|]. intros a [Ha|(l & c' & Hin & Ha)].
        -- destruct Hp1 as [Hp1|Hp1]; rewrite Hp1 in Ha; [|by left].
           right. exists refs, c. split; [left|done].
        -- right. exists l, c'. split; [by right|done].
Qed.

(** X5.  The hook never gives an object a [current] property and never
    takes one away: after any history of render cycles the objects that
    have one are the same as before. *)
Theorem current_properties_kept (history : list (list ref * elementChange))
    (s : state) :
  ∃ callbacks s',
    run history s = Some (callbacks, s') ∧
    dom (objs (world s')) = dom (objs (world s)).
Proof.
  revert s. induction history as [|[refs c] history IH]; intros s.
  - by exists [], s.
  - destruct (cycle_delta refs c s) as (cb & s1 & d1 & Hcyc & Hw1 & Hd1 & _).
    destruct (IH s1) as (cbs & s2 & Hrun & Hdom).
    exists (cb :: cbs), s2. simpl. rewrite Hcyc. simpl. rewrite Hrun. simpl.
    split; [done|]. rewrite Hdom. apply set_eq. intros o.
    rewrite !elem_of_dom.
    assert (isAssignable (world s1) (RObject o) = isAssignable (world s) (RObject o))
      as Ha.
    { rewrite Hw1. apply isAssignable_applyLog.
      eapply Forall_impl; [exact Hd1|]. by intros a [_ ?]. }
    simpl in Ha.
    split; intros Hsome; apply (bool_decide_eq_true_2 _) in Hsome;
      apply (bool_decide_eq_true_1 (is_Some _)); congruence.
Qed.





(** An unmount in a render that passes the list of the render before:
    both refs of the current list get [null]. *)
Example unmount_after_same_list :
  ∃ callbacks s,
    run [([RFunction 1; RObject 3], Mounted 7);
         ([RFunction 1; RObject 3], Unmounted)]
      (init {| log := []; objs := {[ 3 := VUndefined ]} |})
    = Some (callbacks, s) ∧
    log (world s)
    = [(RFunction 1, VElement 7); (RObject 3, VElement 7);
       (RFunction 1, VNull); (RObject 3, VNull)] ∧
    objs (world s) !! 3 = Some VNull.
Proof. eexists _, _. split; [vm_compute; reflexivity|]. by split. Qed.

End MergeRefsFacts.

(** ** parseAudioUrl: facts *)

Module AudioUrlFacts.
Import AudioUrl.

Lemma splitLast_None c s : splitLast c s = None ↔ contains c s = false.
Proof.
  induction s as [|a s IH]; simpl; [done|].
  destruct (splitLast c s) as [[before after]|].
  - split; [done|]. intros [_ Hs]%orb_false_iff. apply IH in Hs. done.
  - destruct IH as [IH _]. rewrite (IH eq_refl), orb_false_r.
    destruct (Ascii.eqb a c); split; done.
Qed.

Lemma splitLast_Some c s before after :
  splitLast c s = Some (before, after) →
  s = before +:+ String c after ∧ contains c after = false.
Proof.
  revert before. induction s as [|a s IH]; intros before; simpl; [done|].
  destruct (splitLast c s) as [[b' a']|] eqn:Hs.
  - intros [= <- <-]. destruct (IH b' eq_refl) as [-> Ha]. done.
  - destruct (Ascii.eqb a c) eqn:Hac; [|done].
    intros [= <- <-]. apply Ascii.eqb_eq in Hac as ->.
    split; [done|]. by apply splitLast_None.
Qed.

Lemma splitLast_app c before after :
  contains c after = false →
  splitLast c (before +:+ String c after) = Some (before, after).
Proof.
  intros Ha. induction before as [|a before IH]; simpl.
  - apply splitLast_None in Ha. by rewrite Ha, Ascii.eqb_refl.
  - by rewrite IH.
Qed.

Lemma contains_app c s1 s2 :
  contains c (s1 +:+ s2) = contains c s1 || contains c s2.
Proof.
  induction s1 as [|a s1 IH]; simpl; [done|]. by rewrite IH, orb_assoc.
Qed.

Lemma contains_takeUntil stop c s :
  stop c = true → contains c (takeUntil stop s) = false.
Proof.
  intros Hc. induction s as [|a s IH]; simpl; [done|].
  destruct (stop a) eqn:Ha; simpl; [done|].
  rewrite IH, orb_false_r. apply Ascii.eqb_neq. congruence.
Qed.

(** The final segment is the end of the URL's path: it holds no [/], no
    [?] and no [#]. *)
Lemma finalSegment_clean url :
  contains "/" (finalSegment url) = false ∧
  contains "?" (finalSegment url) = false ∧
  contains "#" (finalSegment url) = false.
Proof.
  unfold finalSegment.
  assert (contains "?" (stripQueryAndFragment url) = false) as Hq
    by by apply contains_takeUntil.
  assert (contains "#" (stripQueryAndFragment url) = false) as Hf
    by by apply contains_takeUntil.
  destruct (splitLast "/" (stripQueryAndFragment url)) as [[dir segment]|] eqn:Hs.
  - apply splitLast_Some in Hs as [Hpath Hseg]. rewrite Hpath in Hq, Hf.
    rewrite contains_app in Hq, Hf. simpl in Hq, Hf.
    apply orb_false_iff in Hq as [_ Hq], Hf as [_ Hf]. done.
  - by apply splitLast_None in Hs.
Qed.

Lemma append_assoc_url s1 s2 s3 : (s1 +:+ s2) +:+ s3 = s1 +:+ (s2 +:+ s3).
Proof.
  induction s1 as [|a s1 IH]; [done|].
  change (String a ((s1 +:+ s2) +:+ s3) = String a (s1 +:+ s2 +:+ s3)).
  by f_equal.
Qed.

(** Stripping stops at the first [?] or [#]. *)
Lemma stripQueryAndFragment_app path rest :
  contains "?" path = false →
  contains "#" path = false →
  rest = "" ∨ (∃ c rest', rest = String c rest' ∧ isQueryOrFragmentStart c = true) →
  stripQueryAndFragment (path +:+ rest) = path.
Proof.
  intros Hq Hf Hrest. unfold stripQueryAndFragment.
  induction path as [|a path IH].
  - destruct Hrest as [->|(c & rest' & -> & Hc)]; [done|].
    change (takeUntil isQueryOrFragmentStart (String c rest') = "").
    simpl. by rewrite Hc.
  - simpl in Hq, Hf.
    apply orb_false_iff in Hq as [Haq Hq], Hf as [Haf Hf].
    change (takeUntil isQueryOrFragmentStart (String a (path +:+ rest))
            = String a path).
    simpl. unfold isQueryOrFragmentStart at 1. rewrite Haq, Haf. simpl.
    f_equal. by apply IH.
Qed.

(** Every URL has a final segment, the one the parser takes. *)
Lemma finalSegment_exists url : isFinalSegmentOf (finalSegment url) url.
Proof.
  assert (∃ rest, url = stripQueryAndFragment url +:+ rest ∧
            (rest = "" ∨ ∃ c rest', rest = String c rest'
                                    ∧ isQueryOrFragmentStart c = true))
    as (rest & Hurl & Hrest).
  { unfold stripQueryAndFragment. induction url as [|a url IH].
    - exists "". split; [done|]. by left.
    - simpl. destruct (isQueryOrFragmentStart a) eqn:Ha.
      + exists (String a url). split; [done|]. right. eauto.
      + destruct IH as (rest & Hurl & Hrest). exists rest. split; [|done].
        change (String a url
                = String a (takeUntil isQueryOrFragmentStart url +:+ rest)).
        by f_equal. }
  assert (contains "?" (stripQueryAndFragment url) = false) as Hq
    by by apply contains_takeUntil.
  assert (contains "#" (stripQueryAndFragment url) = false) as Hf
    by by apply contains_takeUntil.
  destruct (finalSegment_clean url) as (Hs1 & Hs2 & Hs3).
  unfold finalSegment in *.
  destruct (splitLast "/" (stripQueryAndFragment url)) as [[dir segment]|] eqn:Hs.
  - apply splitLast_Some in Hs as [Hpath _].
    exists (dir +:+ "/"), rest. rewrite Hpath in Hurl, Hq, Hf.
    rewrite contains_app in Hq, Hf.
    apply orb_false_iff in Hq as [Hq _], Hf as [Hf _].
    split.
    { rewrite Hurl at 1. rewrite !append_assoc_url. reflexivity. }
    split; [right; eauto|].
    rewrite !contains_app, Hq, Hf. done.
  - exists "", rest. split; [exact Hurl|]. split; [by left|]. done.
Qed.

(** The parser's segment is the URL's final segment. *)
Lemma finalSegment_unique segment url :
  isFinalSegmentOf segment url → finalSegment url = segment.
Proof.
  intros (before & rest & -> & Hbefore & Hbq & Hbf & Hslash & Hsq & Hsf & Hrest).
  unfold finalSegment.
  rewrite <- append_assoc_url, stripQueryAndFragment_app;
    [| rewrite contains_app, Hbq, Hsq; done
     | rewrite contains_app, Hbf, Hsf; done
     | done].
  destruct Hbefore as [->|[dir ->]].
  - change ("" +:+ segment) with segment.
    apply splitLast_None in Hslash. by rewrite Hslash.
  - rewrite append_assoc_url.
    change ("/" +:+ segment) with (String "/" segment).
    by rewrite splitLast_app.
Qed.

(** C5.  When the final path segment of the URL holds no [.], the
    extension is the empty string and the title is that segment, without
    the query string and the fragment. *)
Theorem parseAudioUrl_without_dot (url segment : string) :
  isFinalSegmentOf segment url →
  contains "." segment = false →
  parseAudioUrl url = {| title := segment; extension := "" |}.
Proof.
  intros Hseg Hdot. unfold parseAudioUrl.
  rewrite (finalSegment_unique segment url Hseg).
  apply splitLast_None in Hdot. by rewrite Hdot.
Qed.

Lemma parseAudioUrl_without_dot_witness :
  let url := "https://www.mp3.com/folder/file?key1=value1#anchor" in
  let segment := "file" in
  (isFinalSegmentOf segment url ∧ contains "." segment = false) ∧
  parseAudioUrl url = {| title := segment; extension := "" |}.
Proof.
  intros url segment.
  assert (isFinalSegmentOf segment url ∧ contains "." segment = false) as Hyp.
  { split; [|reflexivity].
    exists "https://www.mp3.com/folder/", "?key1=value1#anchor".
    split; [reflexivity|]. split; [right; by exists "https://www.mp3.com/folder"|].
    repeat (split; [reflexivity|]). right. by exists "?"%char, "key1=value1#anchor". }
  split; [exact Hyp|].
  apply (parseAudioUrl_without_dot url segment); apply Hyp.
Defined.

(** C6 (as amended).  When the final path segment of the URL holds a [.],
    it is cut at its last [.]: the title is what is before it, the
    extension what is after it.  The extension is empty exactly when the
    segment ends with the [.], the title exactly when that [.] is the
    segment's first character. *)
Theorem parseAudioUrl_with_dot (url segment : string) :
  isFinalSegmentOf segment url →
  contains "." segment = true →
  segment
  = title (parseAudioUrl url) +:+ String "." (extension (parseAudioUrl url)) ∧
  contains "." (extension (parseAudioUrl url)) = false ∧
  (extension (parseAudioUrl url) = "" ↔ ∃ t, segment = t +:+ ".") ∧
  (title (parseAudioUrl url) = "" ↔
     ∃ e, segment = String "." e ∧ contains "." e = false).
Proof.
  intros Hseg Hdot. unfold parseAudioUrl.
  rewrite (finalSegment_unique segment url Hseg).
  destruct (splitLast "." segment) as [[t e]|] eqn:Hs.
  2: { apply splitLast_None in Hs. congruence. }
  simpl. pose proof Hs as Hs'. apply splitLast_Some in Hs' as [Hcut He].
  split; [done|]. split; [done|]. split; split.
  - intros ->. eauto.
  - intros [t' Ht']. rewrite Ht' in Hs.
    rewrite (splitLast_app "." t' "") in Hs by done. congruence.
  - intros ->. eauto.
  - intros (e' & He' & Hno). rewrite He' in Hs.
    pose proof (splitLast_app "." "" e' Hno) as Hs'.
    change ("" +:+ String "." e') with (String "." e') in Hs'. congruence.
Qed.

Lemma parseAudioUrl_with_dot_witness :
  let url := "https://www.mp3.com/file.mp3?key1=value1&key2=value2" in
  let segment := "file.mp3" in
  (isFinalSegmentOf segment url ∧ contains "." segment = true) ∧
  segment
  = title (parseAudioUrl url) +:+ String "." (extension (parseAudioUrl url)) ∧
  contains "." (extension (parseAudioUrl url)) = false ∧
  (extension (parseAudioUrl url) = "" ↔ ∃ t, segment = t +:+ ".") ∧
  (title (parseAudioUrl url) = "" ↔
     ∃ e, segment = String "." e ∧ contains "." e = false).
Proof.
  intros url segment.
  assert (isFinalSegmentOf segment url ∧ contains "." segment = true) as Hyp.
  { split; [|reflexivity].
    exists "https://www.mp3.com/", "?key1=value1&key2=value2".
    split; [reflexivity|]. split; [right; by exists "https://www.mp3.com"|].
    repeat (split; [reflexivity|]).
    right. by exists "?"%char, "key1=value1&key2=value2". }
  split; [exact Hyp|].
  apply (parseAudioUrl_with_dot url segment); apply Hyp.
Defined.

(** C6, as stated, fails: a final segment that begins with its only [.]
    has an empty title, one that ends with a [.] an empty extension. *)
Lemma parseAudioUrl_counterexample :
  (isFinalSegmentOf ".mp3" "https://www.mp3.com/.mp3" ∧
   contains "." ".mp3" = true ∧
   title (parseAudioUrl "https://www.mp3.com/.mp3") = "") ∧
  (isFinalSegmentOf "file." "https://www.mp3.com/file." ∧
   contains "." "file." = true ∧
   extension (parseAudioUrl "https://www.mp3.com/file.") = "").
Proof.
  split; (split; [|by split]);
    exists "https://www.mp3.com/", ""; (split; [reflexivity|]);
    (split; [right; by exists "https://www.mp3.com"|]);
    repeat (split; [reflexivity|]); by left.
Qed.

(** The assertions of the test file. *)
Example test_supportedAudioUrlsWithExtensions :
  Forall (λ url, title (parseAudioUrl url) ≠ "" ∧ extension (parseAudioUrl url) ≠ "")
    supportedAudioUrlsWithExtensions.
Proof. repeat constructor; discriminate. Qed.

Example test_supportedAudioUrlsWithoutExtensions :
  Forall (λ url, title (parseAudioUrl url) ≠ "" ∧ extension (parseAudioUrl url) = "")
    supportedAudioUrlsWithoutExtensions.
Proof. repeat constructor; discriminate. Qed.

End AudioUrlFacts.

(** ** Font-family block support: facts *)

Module FontFamilyFacts.
Import FontFamily.

Lemma append_nil_r s : s +:+ "" = s.
Proof.
  induction s as [|a s IH]; [done|].
  change (String a (s +:+ "") = String a s). by f_equal.
Qed.

Lemma append_assoc s1 s2 s3 : (s1 +:+ s2) +:+ s3 = s1 +:+ (s2 +:+ s3).
Proof.
  induction s1 as [|a s1 IH]; [done|].
  change (String a ((s1 +:+ s2) +:+ s3) = String a (s1 +:+ s2 +:+ s3)).
  by f_equal.
Qed.

Lemma append_eq_nil s1 s2 : s1 +:+ s2 = "" → s1 = "" ∧ s2 = "".
Proof. destruct s1; [done|]. discriminate. Qed.

Lemma eqb_empty s : String.eqb s "" = true ↔ s = "".
Proof. apply String.eqb_eq. Qed.

Lemma hasWhitespace_app s1 s2 :
  hasWhitespace (s1 +:+ s2) = hasWhitespace s1 || hasWhitespace s2.
Proof.
  induction s1 as [|a s1 IH]; simpl; [done|]. by rewrite IH, orb_assoc.
Qed.

(** Reading on through a run without whitespace extends the current run. *)
Lemma splitWhitespace_run cur t rest :
  hasWhitespace t = false →
  splitWhitespace cur (t +:+ rest) = splitWhitespace (cur +:+ t) rest.
Proof.
  revert cur. induction t as [|a t IH]; intros cur Ht.
  - by rewrite append_nil_r.
  - simpl in Ht. apply orb_false_iff in Ht as [Ha Ht]. simpl.
    rewrite Ha, IH by done. by rewrite append_assoc.
Qed.

Lemma splitWhitespace_end cur :
  splitWhitespace cur "" = if String.eqb cur "" then [] else [cur].
Proof. reflexivity. Qed.

(** A space ends the current run. *)
Lemma splitWhitespace_space cur a b :
  splitWhitespace cur (a +:+ " " +:+ b) = splitWhitespace cur a ++ tokens b.
Proof.
  revert cur. induction a as [|c a IH]; intros cur; simpl.
  - by destruct (String.eqb cur "").
  - destruct (isWhitespace c); [|apply IH].
    destruct (String.eqb cur ""); simpl; by rewrite IH.
Qed.

Lemma tokens_space a b : tokens (a +:+ " " +:+ b) = tokens a ++ tokens b.
Proof. apply splitWhitespace_space. Qed.

Lemma tokens_token t : isToken t → tokens t = [t].
Proof.
  intros [Hne Hws]. unfold tokens.
  rewrite <- (append_nil_r t) at 1. rewrite splitWhitespace_run by done.
  change ("" +:+ t) with t. rewrite splitWhitespace_end.
  destruct (String.eqb t "") eqn:Heq; [|done].
  by apply eqb_empty in Heq.
Qed.

Lemma splitWhitespace_tokens cur s :
  hasWhitespace cur = false →
  Forall isToken (splitWhitespace cur s).
Proof.
  revert cur. induction s as [|c s IH]; intros cur Hcur; simpl.
  - destruct (String.eqb cur "") eqn:Heq; constructor; [|constructor].
    split; [|done]. intros ->. done.
  - destruct (isWhitespace c) eqn:Hc.
    + destruct (String.eqb cur "") eqn:Heq; [by apply IH|].
      constructor; [|by apply IH]. split; [|done]. intros ->. done.
    + apply IH. rewrite hasWhitespace_app. simpl. by rewrite Hcur, Hc.
Qed.

Lemma tokens_are_tokens s : Forall isToken (tokens s).
Proof. by apply splitWhitespace_tokens. Qed.

(** A run that has begun ends up as a token. *)
Lemma splitWhitespace_nonempty cur s :
  cur ≠ "" → splitWhitespace cur s ≠ [].
Proof.
  revert cur. induction s as [|c s IH]; intros cur Hcur; simpl.
  - destruct (String.eqb cur "") eqn:Heq; [|done]. by apply eqb_empty in Heq.
  - destruct (isWhitespace c).
    + destruct (String.eqb cur "") eqn:Heq; [|done]. by apply eqb_empty in Heq.
    + apply IH. intros [_ ?]%append_eq_nil. done.
Qed.

(** Joining tokens with spaces and splitting again gives the tokens back. *)
Lemma tokens_join l : Forall isToken l → tokens (join " " l) = l.
Proof.
  induction l as [|x l IH]; intros Hl; [done|].
  apply Forall_cons in Hl as [Hx Hl].
  destruct l as [|y l]; [by apply tokens_token|].
  change (join " " (x :: y :: l)) with (x +:+ " " +:+ join " " (y :: l)).
  rewrite tokens_space, IH by done. by rewrite tokens_token.
Qed.

Lemma join_nonempty l : Forall isToken l → l ≠ [] → join " " l ≠ "".
Proof.
  intros Hl Hne Hj. apply (f_equal tokens) in Hj.
  rewrite tokens_join in Hj by done. done.
Qed.

Lemma uniq_ext seen seen' l :
  (∀ x, x ∈ seen ↔ x ∈ seen') → uniq seen l = uniq seen' l.
Proof.
  revert seen seen'. induction l as [|x l IH]; intros seen seen' Hs; simpl; [done|].
  rewrite (bool_decide_ext _ _ (Hs x)).
  destruct (bool_decide (x ∈ seen')); [by apply IH|].
  f_equal. apply IH. intros y. rewrite !elem_of_cons, Hs. done.
Qed.

Lemma elem_of_uniq seen l x : x ∈ uniq seen l ↔ x ∈ l ∧ x ∉ seen.
Proof.
  revert seen. induction l as [|y l IH]; intros seen; simpl.
  - split; [by intros ?%elem_of_nil|]. by intros [?%elem_of_nil _].
  - case_bool_decide as Hy.
    + rewrite IH, elem_of_cons. split; [tauto|].
      intros [[->|?] ?]; done.
    + rewrite !elem_of_cons, IH, elem_of_cons. split.
      * intros [->|[? ?]]; [tauto|]. tauto.
      * intros [[->|?] ?]; [tauto|].
        destruct (decide (x = y)); [tauto|]. right. tauto.
Qed.

Lemma uniq_uniq_app seen l1 l2 :
  uniq seen (uniq seen l1 ++ l2) = uniq seen (l1 ++ l2).
Proof.
  revert seen. induction l1 as [|x l1 IH]; intros seen; simpl; [done|].
  case_bool_decide as Hx; [apply IH|]. simpl.
  rewrite bool_decide_eq_false_2 by done. f_equal. apply IH.
Qed.

Lemma uniq_app seen l1 l2 :
  uniq seen (l1 ++ l2) = uniq seen l1 ++ uniq (l1 ++ seen) l2.
Proof.
  revert seen. induction l1 as [|x l1 IH]; intros seen; simpl; [done|].
  case_bool_decide as Hx.
  - rewrite IH. f_equal. apply uniq_ext. intros y. simpl.
    rewrite elem_of_cons, !elem_of_app. split; [tauto|].
    intros [->|?]; tauto.
  - rewrite IH. simpl. f_equal. f_equal. apply uniq_ext. intros y. simpl.
    rewrite elem_of_cons, !elem_of_app, elem_of_cons. tauto.
Qed.

Lemma uniq_tokens seen l : Forall isToken l → Forall isToken (uniq seen l).
Proof.
  intros Hl. apply Forall_forall. intros x Hx.
  apply elem_of_uniq in Hx as [Hx _]. by eapply Forall_forall in Hl.
Qed.

Lemma uniq_snoc seen l x :
  uniq seen (l ++ [x])
  = uniq seen l ++ (if bool_decide (x ∈ l ++ seen) then [] else [x]).
Proof. by rewrite uniq_app. Qed.

(** The list after [new TokenList( className )] and [add( item )]. *)
Lemma add_newTokenList initialValue item :
  valueAsArray (add item (newTokenList initialValue))
  = uniq [] (tokens (default "" initialValue) ++ tokens item) ∧
  currentValue (add item (newTokenList initialValue))
  = join " " (uniq [] (tokens (default "" initialValue) ++ tokens item)).
Proof.
  unfold add, newTokenList, setValue. simpl.
  rewrite tokens_space, tokens_join, uniq_uniq_app; [done|].
  apply uniq_tokens, tokens_are_tokens.
Qed.

Lemma fontFamilyClass_tokens_nonempty value : tokens (fontFamilyClass value) ≠ [].
Proof.
  unfold tokens, fontFamilyClass.
  change (splitWhitespace "has-" (value +:+ "-font-family") ≠ []).
  by apply splitWhitespace_nonempty.
Qed.

Lemma fontFamilyClass_token value :
  hasWhitespace value = false → isToken (fontFamilyClass value).
Proof.
  intros Hv. split; [done|]. unfold fontFamilyClass.
  rewrite !hasWhitespace_app, Hv. reflexivity.
Qed.

Lemma truthy_Some s : truthy (Some s) = true ↔ s ≠ "".
Proof.
  simpl. rewrite negb_true_iff. split.
  - intros Heq ->. done.
  - intros Hne. apply not_true_iff_false. by rewrite eqb_empty.
Qed.

Lemma find_first {A} (p : A → bool) before x after :
  Forall (λ y, p y = false) before → p x = true →
  List.find p (before ++ x :: after) = Some x.
Proof.
  intros Hb Hx. induction Hb as [|y before Hy _ IH]; simpl.
  - by rewrite Hx.
  - by rewrite Hy.
Qed.

Lemma find_none {A} (p : A → bool) l :
  Forall (λ y, p y = false) l → List.find p l = None.
Proof.
  intros Hl. induction Hl as [|y l Hy _ IH]; simpl; [done|]. by rewrite Hy.
Qed.

(** C7.  For a block type that does not declare the font-family support
    key, [addAttributes] returns the settings, [addSaveProps] the props and
    [withFontFamilyInlineStyles] hands on the props it got, all as they
    were. *)
Theorem font_family_unsupported_noop (block : blockType) :
  supports block !! FONT_FAMILY_SUPPORT_KEY = None →
  addAttributes block = block ∧
  (∀ props attributes, addSaveProps props block attributes = props) ∧
  (∀ registry fontFamilies props,
     registry !! name props = Some block →
     withFontFamilyInlineStyles registry fontFamilies props = props).
Proof.
  intros Hno.
  assert (hasBlockSupport (Some block) FONT_FAMILY_SUPPORT_KEY = false) as Hs.
  { unfold hasBlockSupport. by rewrite Hno. }
  split; [|split].
  - unfold addAttributes. by rewrite Hs.
  - intros props attributes. unfold addSaveProps. by rewrite Hs.
  - intros registry fontFamilies props Hreg. unfold withFontFamilyInlineStyles.
    by rewrite Hreg, Hs.
Qed.

Lemma font_family_unsupported_noop_witness :
  let block :=
    {| typeName := "core/spacer";
       typeAttributes := {[ "height" := {| schemaType := "number"; schemaDefault := None |} ]};
       supports := {[ "anchor" := true ]} |} in
  supports block !! FONT_FAMILY_SUPPORT_KEY = None ∧
  addAttributes block = block ∧
  (∀ props attributes, addSaveProps props block attributes = props) ∧
  (∀ registry fontFamilies props,
     registry !! name props = Some block →
     withFontFamilyInlineStyles registry fontFamilies props = props).
Proof.
  intros block.
  assert (supports block !! FONT_FAMILY_SUPPORT_KEY = None) as Hyp by reflexivity.
  split; [exact Hyp|].
  apply (font_family_unsupported_noop block Hyp).
Defined.

(** C8 (as amended).  For a block type with font-family support and a
    non-empty [fontFamily] attribute: when the block declares the
    skip-typography-serialization support the props are returned
    unchanged; otherwise only the class name changes, to the tokens of the
    old class name followed by the tokens of [has-<slug>-font-family],
    each token kept once, joined by single spaces.  For a slug without
    whitespace the class is one token: it is put last when the old class
    name does not hold it, and nothing is added when it does. *)
Theorem addSaveProps_adds_class (props : saveProps) (block : blockType)
    (attributes : option blockAttributes) (value : string) :
  hasBlockSupport (Some block) FONT_FAMILY_SUPPORT_KEY = true →
  attributes ≫= fontFamily = Some value →
  value ≠ "" →
  (hasBlockSupport (Some block) SKIP_TYPOGRAPHY_SERIALIZATION_KEY = true →
     addSaveProps props block attributes = props) ∧
  (hasBlockSupport (Some block) SKIP_TYPOGRAPHY_SERIALIZATION_KEY = false →
     ∃ newClassName,
       addSaveProps props block attributes
       = {| className := Some newClassName; otherSaveProps := otherSaveProps props |} ∧
       newClassName = join " " (tokens newClassName) ∧
       tokens newClassName
       = uniq [] (tokens (default "" (className props))
                  ++ tokens (fontFamilyClass value)) ∧
       (hasWhitespace value = false →
          (fontFamilyClass value ∉ tokens (default "" (className props)) →
             tokens newClassName
             = uniq [] (tokens (default "" (className props)))
               ++ [fontFamilyClass value]) ∧
          (fontFamilyClass value ∈ tokens (default "" (className props)) →
             tokens newClassName
             = uniq [] (tokens (default "" (className props)))))).
Proof.
  intros Hsup Hattr Hne. unfold addSaveProps. rewrite Hsup, Hattr.
  assert (truthy (Some value) = true) as -> by by apply truthy_Some.
  cbn [negb].
  split; [by intros ->|]. intros ->.
  change (default "" (Some value)) with value.
  destruct (add_newTokenList (className props) (fontFamilyClass value)) as [_ Hval].
  set (old := tokens (default "" (className props))) in *.
  set (arr := uniq [] (old ++ tokens (fontFamilyClass value))) in *.
  assert (Forall isToken arr) as Harr.
  { apply uniq_tokens, Forall_app. split; apply tokens_are_tokens. }
  assert (arr ≠ []) as Hnonempty.
  { destruct (tokens (fontFamilyClass value)) as [|x l] eqn:Hx.
    - by apply fontFamilyClass_tokens_nonempty in Hx.
    - intros Hnil. assert (x ∈ arr) as Hin.
      { apply elem_of_uniq. split; [|by intros ?%elem_of_nil].
        apply elem_of_app. right. left. }
      rewrite Hnil in Hin. by apply elem_of_nil in Hin. }
  exists (join " " arr). cbv zeta. rewrite Hval.
  assert (truthy (Some (join " " arr)) = true) as ->.
  { apply truthy_Some. by apply join_nonempty. }
  rewrite tokens_join by done.
  split; [done|]. split; [done|]. split; [done|].
  intros Hws. unfold arr.
  rewrite (tokens_token (fontFamilyClass value)) by by apply fontFamilyClass_token.
  rewrite uniq_snoc, app_nil_r. split; intros Hin.
  - by rewrite bool_decide_eq_false_2.
  - by rewrite bool_decide_eq_true_2, app_nil_r.
Qed.

Lemma addSaveProps_adds_class_witness :
  let block :=
    {| typeName := "core/paragraph"; typeAttributes := ∅;
       supports := {[ FONT_FAMILY_SUPPORT_KEY := true ]} |} in
  let props :=
    {| className := Some "wp-block  has-text-color"; otherSaveProps := ∅ |} in
  let attributes := Some {| fontFamily := Some "helvetica-arial"; style := None |} in
  let value := "helvetica-arial" in
  (hasBlockSupport (Some block) FONT_FAMILY_SUPPORT_KEY = true ∧
   attributes ≫= fontFamily = Some value ∧
   value ≠ "") ∧
  (hasBlockSupport (Some block) SKIP_TYPOGRAPHY_SERIALIZATION_KEY = true →
     addSaveProps props block attributes = props) ∧
  (hasBlockSupport (Some block) SKIP_TYPOGRAPHY_SERIALIZATION_KEY = false →
     ∃ newClassName,
       addSaveProps props block attributes
       = {| className := Some newClassName; otherSaveProps := otherSaveProps props |} ∧
       newClassName = join " " (tokens newClassName) ∧
       tokens newClassName
       = uniq [] (tokens (default "" (className props))
                  ++ tokens (fontFamilyClass value)) ∧
       (hasWhitespace value = false →
          (fontFamilyClass value ∉ tokens (default "" (className props)) →
             tokens newClassName
             = uniq [] (tokens (default "" (className props)))
               ++ [fontFamilyClass value]) ∧
          (fontFamilyClass value ∈ tokens (default "" (className props)) →
             tokens newClassName
             = uniq [] (tokens (default "" (className props)))))).
Proof.
  intros block props attributes value.
  assert (hasBlockSupport (Some block) FONT_FAMILY_SUPPORT_KEY = true ∧
          attributes ≫= fontFamily = Some value ∧ value ≠ "") as Hyp.
  { split; [|split]; [reflexivity | reflexivity | discriminate]. }
  split; [exact Hyp|].
  apply (addSaveProps_adds_class props block attributes value); apply Hyp.
Defined.

(** C8, as stated, fails: when the class name already holds the class,
    nothing is appended, the props come back as they were. *)
Lemma addSaveProps_counterexample :
  let block :=
    {| typeName := "core/paragraph"; typeAttributes := ∅;
       supports := {[ FONT_FAMILY_SUPPORT_KEY := true ]} |} in
  let props :=
    {| className := Some "has-serif-font-family wp-block"; otherSaveProps := ∅ |} in
  let attributes := Some {| fontFamily := Some "serif"; style := None |} in
  hasBlockSupport (Some block) FONT_FAMILY_SUPPORT_KEY = true ∧
  hasBlockSupport (Some block) SKIP_TYPOGRAPHY_SERIALIZATION_KEY = false ∧
  addSaveProps props block attributes = props.
Proof. repeat split. Qed.

(** C9 (as amended).  For a block with font-family support and a non-empty
    [fontFamily] attribute: when the attributes carry an inline font
    family, or the block declares the skip-typography-serialization
    support, the props are handed on unchanged.  Otherwise only
    [wrapperProps.style] changes: every key it had keeps its value, a
    [fontFamily] it had included, and when it had none, [fontFamily] is set
    to the font family of the first settings entry whose slug is the
    attribute, or to [undefined] when there is no such entry. *)
Theorem withFontFamilyInlineStyles_merges_style
    (registry : gmap string blockType)
    (fontFamilies : option (list fontFamilyPreset))
    (props : blockProps) (value : string) :
  hasBlockSupport (registry !! name props) FONT_FAMILY_SUPPORT_KEY = true →
  fontFamily (attributes props) = Some value →
  value ≠ "" →
  (truthy (inlineFontFamily (style (attributes props))) = true →
     withFontFamilyInlineStyles registry fontFamilies props = props) ∧
  (hasBlockSupport (registry !! name props) SKIP_TYPOGRAPHY_SERIALIZATION_KEY = true →
     withFontFamilyInlineStyles registry fontFamilies props = props) ∧
  (truthy (inlineFontFamily (style (attributes props))) = false →
   hasBlockSupport (registry !! name props) SKIP_TYPOGRAPHY_SERIALIZATION_KEY = false →
   ∃ newStyle : gmap string (option string),
     withFontFamilyInlineStyles registry fontFamilies props
     = {| name := name props;
          attributes := attributes props;
          wrapperProps :=
            Some {| wrapperStyle := Some newStyle;
                    otherWrapperProps :=
                      default (∅ : gmap string string)
                        (otherWrapperProps <$> wrapperProps props) |};
          otherProps := otherProps props |} ∧
     (∀ k v, default ∅ (wrapperProps props ≫= wrapperStyle) !! k = Some v →
        newStyle !! k = Some v) ∧
     (∀ k, k ≠ "fontFamily" →
        newStyle !! k = default ∅ (wrapperProps props ≫= wrapperStyle) !! k) ∧
     (default ∅ (wrapperProps props ≫= wrapperStyle) !! "fontFamily" = None →
        (∀ before p after,
           fontFamilies = Some (before ++ p :: after) →
           Forall (λ q, slug q ≠ value) before →
           slug p = value →
           newStyle !! "fontFamily" = Some (Some (presetFontFamily p))) ∧
        (fontFamilies = None
         ∨ (∃ presets, fontFamilies = Some presets
                       ∧ Forall (λ q, slug q ≠ value) presets) →
         newStyle !! "fontFamily" = Some None))).
Proof.
  intros Hsup Hattr Hne. unfold withFontFamilyInlineStyles.
  rewrite Hsup, Hattr.
  assert (truthy (Some value) = true) as -> by by apply truthy_Some.
  cbn [negb orb].
  split; [by intros ->; rewrite orb_true_r|].
  split; [by intros ->|].
  intros -> ->. cbn [orb]. eexists. split; [reflexivity|].
  unfold mergeStyle.
  set (oldStyle := default ∅ (wrapperProps props ≫= wrapperStyle)).
  split; [|split].
  - intros k v Hk. by apply lookup_union_Some_l.
  - intros k Hk. rewrite lookup_union_l; [done|]. by apply lookup_singleton_ne.
  - intros Hnone. rewrite lookup_union_r by done. rewrite lookup_singleton_eq.
    split.
    + intros before p after -> Hbefore Hp. unfold find. simpl.
      rewrite (find_first _ before p after); [done| |].
      * eapply Forall_impl; [exact Hbefore|]. intros q Hq.
        apply bool_decide_eq_false. congruence.
      * apply bool_decide_eq_true. congruence.
    + intros [->|(presets & -> & Hall)]; [done|]. unfold find. simpl.
      rewrite find_none; [done|].
      eapply Forall_impl; [exact Hall|]. intros q Hq.
      apply bool_decide_eq_false. congruence.
Qed.

Lemma withFontFamilyInlineStyles_merges_style_witness :
  let block :=
    {| typeName := "core/paragraph"; typeAttributes := ∅;
       supports := {[ FONT_FAMILY_SUPPORT_KEY := true ]} |} in
  let registry : gmap string blockType := {[ "core/paragraph" := block ]} in
  let fontFamilies :=
    Some [ {| slug := "system"; presetFontFamily := "sans-serif" |};
           {| slug := "serif"; presetFontFamily := "Georgia, serif" |} ] in
  let props :=
    {| name := "core/paragraph";
       attributes := {| fontFamily := Some "serif"; style := None |};
       wrapperProps :=
         Some {| wrapperStyle := Some {[ "color" := Some "red" ]};
                 otherWrapperProps := {[ "id" := "intro" ]} |};
       otherProps := ∅ |} in
  let value := "serif" in
  (hasBlockSupport (registry !! name props) FONT_FAMILY_SUPPORT_KEY = true ∧
   fontFamily (attributes props) = Some value ∧
   value ≠ "") ∧
  (truthy (inlineFontFamily (style (attributes props))) = true →
     withFontFamilyInlineStyles registry fontFamilies props = props) ∧
  (hasBlockSupport (registry !! name props) SKIP_TYPOGRAPHY_SERIALIZATION_KEY = true →
     withFontFamilyInlineStyles registry fontFamilies props = props) ∧
  (truthy (inlineFontFamily (style (attributes props))) = false →
   hasBlockSupport (registry !! name props) SKIP_TYPOGRAPHY_SERIALIZATION_KEY = false →
   ∃ newStyle : gmap string (option string),
     withFontFamilyInlineStyles registry fontFamilies props
     = {| name := name props;
          attributes := attributes props;
          wrapperProps :=
            Some {| wrapperStyle := Some newStyle;
                    otherWrapperProps :=
                      default (∅ : gmap string string)
                        (otherWrapperProps <$> wrapperProps props) |};
          otherProps := otherProps props |} ∧
     (∀ k v, default ∅ (wrapperProps props ≫= wrapperStyle) !! k = Some v →
        newStyle !! k = Some v) ∧
     (∀ k, k ≠ "fontFamily" →
        newStyle !! k = default ∅ (wrapperProps props ≫= wrapperStyle) !! k) ∧
     (default ∅ (wrapperProps props ≫= wrapperStyle) !! "fontFamily" = None →
        (∀ before p after,
           fontFamilies = Some (before ++ p :: after) →
           Forall (λ q, slug q ≠ value) before →
           slug p = value →
           newStyle !! "fontFamily" = Some (Some (presetFontFamily p))) ∧
        (fontFamilies = None
         ∨ (∃ presets, fontFamilies = Some presets
                       ∧ Forall (λ q, slug q ≠ value) presets) →
         newStyle !! "fontFamily" = Some None))).
Proof.
  intros block registry fontFamilies props value.
  assert (hasBlockSupport (registry !! name props) FONT_FAMILY_SUPPORT_KEY = true ∧
          fontFamily (attributes props) = Some value ∧ value ≠ "") as Hyp.
  { split; [|split]; [reflexivity | reflexivity | discriminate]. }
  split; [exact Hyp|].
  apply (withFontFamilyInlineStyles_merges_style registry fontFamilies props value);
    apply Hyp.
Defined.

(** C9, as stated, fails.  A block that supports font families and skips
    the serialization of typography gets its props back without any style;
    and a [fontFamily] already in [wrapperProps.style] is kept instead of
    the font family of the settings entry. *)
Lemma withFontFamilyInlineStyles_counterexample :
  let fontFamilies :=
    Some [ {| slug := "serif"; presetFontFamily := "Georgia, serif" |} ] in
  let attrs := {| fontFamily := Some "serif"; style := None |} in
  (let block :=
     {| typeName := "core/paragraph"; typeAttributes := ∅;
        supports := {[ FONT_FAMILY_SUPPORT_KEY := true;
                       SKIP_TYPOGRAPHY_SERIALIZATION_KEY := true ]} |} in
   let registry : gmap string blockType := {[ "core/paragraph" := block ]} in
   let props :=
     {| name := "core/paragraph"; attributes := attrs;
        wrapperProps := None; otherProps := ∅ |} in
   hasBlockSupport (registry !! name props) FONT_FAMILY_SUPPORT_KEY = true ∧
   inlineFontFamily (style (attributes props)) = None ∧
   withFontFamilyInlineStyles registry fontFamilies props = props ∧
   wrapperProps (withFontFamilyInlineStyles registry fontFamilies props) = None) ∧
  (let block :=
     {| typeName := "core/paragraph"; typeAttributes := ∅;
        supports := {[ FONT_FAMILY_SUPPORT_KEY := true ]} |} in
   let registry : gmap string blockType := {[ "core/paragraph" := block ]} in
   let props :=
     {| name := "core/paragraph"; attributes := attrs;
        wrapperProps :=
          Some {| wrapperStyle := Some {[ "fontFamily" := Some "Arial" ]};
                  otherWrapperProps := ∅ |};
        otherProps := ∅ |} in
   hasBlockSupport (registry !! name props) FONT_FAMILY_SUPPORT_KEY = true ∧
   inlineFontFamily (style (attributes props)) = None ∧
   (wrapperProps (withFontFamilyInlineStyles registry fontFamilies props)
      ≫= wrapperStyle) ≫= (.!! "fontFamily")
   = Some (Some "Arial")).
Proof. repeat split. Qed.

(** *** Further facts about the font-family support *)

Lemma uniq_absorb seen l1 l2 :
  Forall (λ x, x ∈ l1 ∨ x ∈ seen) l2 →
  uniq seen (l1 ++ l2) = uniq seen l1.
Proof.
  intros Hl2. rewrite uniq_app.
  assert (uniq (l1 ++ seen) l2 = []) as ->; [|by rewrite app_nil_r].
  induction Hl2 as [|x l2 Hx _ IH]; [done|]. simpl.
  rewrite bool_decide_eq_true_2; [done|]. by apply elem_of_app.
Qed.

Lemma uniq_idemp l : uniq [] (uniq [] l) = uniq [] l.
Proof.
  pose proof (uniq_uniq_app [] l []) as H. by rewrite !app_nil_r in H.
Qed.

Lemma find_unique {A B} `{EqDecision B} (f : A → B) (l : list A) (p : A) :
  NoDup (f <$> l) → p ∈ l →
  List.find (λ q, bool_decide (f q = f p)) l = Some p.
Proof.
  induction l as [|x l IH]; intros Hnd Hin; [by apply elem_of_nil in Hin|].
  rewrite fmap_cons in Hnd. apply NoDup_cons in Hnd as [Hx Hnd]. simpl.
  apply elem_of_cons in Hin as [->|Hin].
  - by rewrite bool_decide_eq_true_2.
  - rewrite bool_decide_eq_false_2; [by apply IH|].
    intros Heq. apply Hx. rewrite Heq. by apply list_elem_of_fmap_2.
Qed.

Lemma hasBlockSupport_addAttributes settings feature :
  hasBlockSupport (Some (addAttributes settings)) feature
  = hasBlockSupport (Some settings) feature.
Proof.
  unfold addAttributes. destruct (negb (hasBlockSupport _ _)); [done|].
  by destruct (negb (bool_decide _)).
Qed.

(** X8.  For a block type with font-family support, [addAttributes] leaves
    a [fontFamily] attribute in the settings: the one the block declares
    itself when there is one, [{ type: 'string' }] otherwise.  The other
    attributes, the name and the supports are as they were. *)
Theorem addAttributes_supported (settings : blockType) :
  hasBlockSupport (Some settings) FONT_FAMILY_SUPPORT_KEY = true →
  typeAttributes (addAttributes settings) !! "fontFamily"
  = Some (default {| schemaType := "string"; schemaDefault := None |}
            (typeAttributes settings !! "fontFamily")) ∧
  (∀ k, k ≠ "fontFamily" →
        typeAttributes (addAttributes settings) !! k = typeAttributes settings !! k) ∧
  typeName (addAttributes settings) = typeName settings ∧
  supports (addAttributes settings) = supports settings.
Proof.
  intros Hsup. unfold addAttributes. rewrite Hsup. cbn [negb].
  destruct (typeAttributes settings !! "fontFamily") as [schema|] eqn:Hattr.
  - rewrite bool_decide_eq_true_2 by eauto. cbn [negb]. by rewrite Hattr.
  - rewrite bool_decide_eq_false_2 by by intros [? ?]. cbn [negb]. simpl.
    rewrite lookup_insert_eq. split; [done|]. split; [|done].
    intros k Hk. by rewrite lookup_insert_ne.
Qed.

Lemma addAttributes_supported_witness :
  let settings :=
    {| typeName := "core/heading";
       typeAttributes := {[ "level" := {| schemaType := "number"; schemaDefault := Some "2" |} ]};
       supports := {[ FONT_FAMILY_SUPPORT_KEY := true ]} |} in
  hasBlockSupport (Some settings) FONT_FAMILY_SUPPORT_KEY = true ∧
  typeAttributes (addAttributes settings) !! "fontFamily"
  = Some (default {| schemaType := "string"; schemaDefault := None |}
            (typeAttributes settings !! "fontFamily")) ∧
  (∀ k, k ≠ "fontFamily" →
        typeAttributes (addAttributes settings) !! k = typeAttributes settings !! k) ∧
  typeName (addAttributes settings) = typeName settings ∧
  supports (addAttributes settings) = supports settings.
Proof.
  intros settings.
  assert (hasBlockSupport (Some settings) FONT_FAMILY_SUPPORT_KEY = true) as Hyp
    by reflexivity.
  split; [exact Hyp|].
  apply (addAttributes_supported settings Hyp).
Defined.

(** X9.  Filtering settings twice with [addAttributes] gives what
    filtering them once gives. *)
Theorem addAttributes_idempotent (settings : blockType) :
  addAttributes (addAttributes settings) = addAttributes settings.
Proof.
  unfold addAttributes at 1. rewrite hasBlockSupport_addAttributes.
  destruct (hasBlockSupport (Some settings) FONT_FAMILY_SUPPORT_KEY) eqn:Hsup;
    cbn [negb]; [|done].
  destruct (addAttributes_supported settings Hsup) as (Hattr & _).
  rewrite Hattr. by rewrite bool_decide_eq_true_2 by eauto.
Qed.

(** X10.  Whatever its arguments, [addSaveProps] touches no prop but the
    class name, and every class of the old class name is a class of the
    new one. *)
Theorem addSaveProps_keeps_classes (props : saveProps) (block : blockType)
    (attrs : option blockAttributes) :
  otherSaveProps (addSaveProps props block attrs) = otherSaveProps props ∧
  Forall (λ t, t ∈ tokens (default "" (className (addSaveProps props block attrs))))
    (tokens (default "" (className props))).
Proof.
  assert (Forall (λ t, t ∈ tokens (default "" (className props)))
            (tokens (default "" (className props)))) as Hsame
    by by apply Forall_forall.
  unfold addSaveProps.
  destruct (negb (hasBlockSupport _ FONT_FAMILY_SUPPORT_KEY)); [done|].
  destruct (hasBlockSupport _ SKIP_TYPOGRAPHY_SERIALIZATION_KEY); [done|].
  destruct (negb (truthy _)); [done|]. cbv zeta.
  destruct (add_newTokenList (className props)
              (fontFamilyClass (default "" (attrs ≫= fontFamily)))) as [_ ->].
  set (old := tokens (default "" (className props))) in *.
  set (cls := tokens (fontFamilyClass _)).
  assert (Forall isToken (uniq [] (old ++ cls))) as Harr.
  { apply uniq_tokens, Forall_app. split; apply tokens_are_tokens. }
  assert (old = [] ∨ uniq [] (old ++ cls) ≠ []) as [Hold|Hne].
  { destruct old as [|x old']; [by left|]. right. simpl. done. }
  { rewrite Hold. split; [by destruct (truthy _)|]. constructor. }
  assert (truthy (Some (join " " (uniq [] (old ++ cls)))) = true) as ->.
  { apply truthy_Some. by apply join_nonempty. }
  simpl. split; [done|]. rewrite tokens_join by done.
  apply Forall_forall. intros t Ht. apply elem_of_uniq.
  split; [|by intros ?%elem_of_nil]. apply elem_of_app. by left.
Qed.

(** X11.  Applying [addSaveProps] again to its own result changes nothing:
    the class is not added a second time. *)
Theorem addSaveProps_idempotent (props : saveProps) (block : blockType)
    (attrs : option blockAttributes) :
  addSaveProps (addSaveProps props block attrs) block attrs
  = addSaveProps props block attrs.
Proof.
  unfold addSaveProps.
  destruct (negb (hasBlockSupport _ FONT_FAMILY_SUPPORT_KEY)); [done|].
  destruct (hasBlockSupport _ SKIP_TYPOGRAPHY_SERIALIZATION_KEY); [done|].
  destruct (negb (truthy _)); [done|]. cbv zeta.
  set (item := fontFamilyClass (default "" (attrs ≫= fontFamily))).
  destruct (add_newTokenList (className props) item) as [_ ->].
  set (arr := uniq [] (tokens (default "" (className props)) ++ tokens item)).
  assert (Forall isToken arr) as Harr.
  { apply uniq_tokens, Forall_app. split; apply tokens_are_tokens. }
  assert (arr ≠ []) as Hne.
  { destruct (tokens item) as [|x l] eqn:Hx.
    - by apply fontFamilyClass_tokens_nonempty in Hx.
    - intros Hnil. assert (x ∈ arr) as Hin.
      { apply elem_of_uniq. split; [|by intros ?%elem_of_nil].
        apply elem_of_app. right. left. }
      rewrite Hnil in Hin. by apply elem_of_nil in Hin. }
  assert (truthy (Some (join " " arr)) = true) as Htruthy.
  { apply truthy_Some. by apply join_nonempty. }
  rewrite Htruthy. cbn [className otherSaveProps].
  destruct (add_newTokenList (Some (join " " arr)) item) as [_ ->].
  cbn [default from_option id]. rewrite tokens_join by done.
  assert (uniq [] (arr ++ tokens item) = arr) as ->; [|by rewrite Htruthy].
  rewrite uniq_absorb.
  - unfold arr. rewrite uniq_idemp. done.
  - apply Forall_forall. intros t Ht. left. apply elem_of_uniq.
    split; [|by intros ?%elem_of_nil]. apply elem_of_app. by right.
Qed.

Lemma find_pointwise {A} (p q : A → bool) l :
  (∀ x, p x = q x) → List.find p l = List.find q l.
Proof.
  intros Hpq. induction l as [|x l IH]; [done|]. simpl. by rewrite Hpq, IH.
Qed.

(** X12.  With no [fontFamily] attribute, or an empty one, neither
    [addSaveProps] nor [withFontFamilyInlineStyles] changes anything,
    whatever the block supports. *)
Theorem empty_fontFamily_noop (family : option string) :
  truthy family = false →
  (∀ props block attrs,
     attrs ≫= fontFamily = family → addSaveProps props block attrs = props) ∧
  (∀ registry fontFamilies props,
     fontFamily (attributes props) = family →
     withFontFamilyInlineStyles registry fontFamilies props = props).
Proof.
  intros Hempty. split.
  - intros props block attrs Hattr. unfold addSaveProps. rewrite Hattr, Hempty.
    destruct (negb (hasBlockSupport _ _)); [done|].
    by destruct (hasBlockSupport _ _).
  - intros registry fontFamilies props Hattr. unfold withFontFamilyInlineStyles.
    rewrite Hattr, Hempty. cbn [negb].
    destruct (negb (hasBlockSupport _ _)); [done|].
    by destruct (hasBlockSupport _ _).
Qed.

Lemma empty_fontFamily_noop_witness :
  let family := Some "" in
  truthy family = false ∧
  (∀ props block attrs,
     attrs ≫= fontFamily = family → addSaveProps props block attrs = props) ∧
  (∀ registry fontFamilies props,
     fontFamily (attributes props) = family →
     withFontFamilyInlineStyles registry fontFamilies props = props).
Proof.
  intros family.
  assert (truthy family = false) as Hyp by reflexivity.
  split; [exact Hyp|].
  apply (empty_fontFamily_noop family Hyp).
Defined.

(** X13.  Whatever its arguments, [withFontFamilyInlineStyles] hands on
    the block's name, attributes and other props as they are, keeps the
    other wrapper props, and keeps every style the wrapper props already
    had. *)
Theorem withFontFamilyInlineStyles_frame (registry : gmap string blockType)
    (fontFamilies : option (list fontFamilyPreset)) (props : blockProps) :
  name (withFontFamilyInlineStyles registry fontFamilies props) = name props ∧
  attributes (withFontFamilyInlineStyles registry fontFamilies props)
  = attributes props ∧
  otherProps (withFontFamilyInlineStyles registry fontFamilies props)
  = otherProps props ∧
  default (∅ : gmap string string)
    (otherWrapperProps <$>
       wrapperProps (withFontFamilyInlineStyles registry fontFamilies props))
  = default ∅ (otherWrapperProps <$> wrapperProps props) ∧
  default (∅ : gmap string (option string)) (wrapperProps props ≫= wrapperStyle)
  ⊆ default ∅
      (wrapperProps (withFontFamilyInlineStyles registry fontFamilies props)
         ≫= wrapperStyle).
Proof.
  unfold withFontFamilyInlineStyles.
  destruct (_ || _); [done|]. simpl. split_and!; try done.
  unfold mergeStyle. apply map_union_subseteq_l.
Qed.

(** X14.  Wrapping twice is wrapping once: [withFontFamilyInlineStyles]
    applied to the props it produced gives them back. *)
Theorem withFontFamilyInlineStyles_idempotent (registry : gmap string blockType)
    (fontFamilies : option (list fontFamilyPreset)) (props : blockProps) :
  withFontFamilyInlineStyles registry fontFamilies
    (withFontFamilyInlineStyles registry fontFamilies props)
  = withFontFamilyInlineStyles registry fontFamilies props.
Proof.
  unfold withFontFamilyInlineStyles at 2.
  destruct (_ || _) eqn:Hguard.
  - unfold withFontFamilyInlineStyles. by rewrite Hguard.
  - unfold withFontFamilyInlineStyles. cbn [name attributes wrapperProps otherProps].
    rewrite Hguard. f_equal. f_equal. f_equal.
    unfold mergeStyle. simpl.
    by rewrite <- (assoc_L (∪)), (idemp_L (∪)).
Qed.

(** X15.  On a block with font-family support, with presets whose slugs
    are distinct and whose font families are distinct, [FontFamilyEdit]
    shows for the stored slug the font family of its preset, and choosing
    that font family stores the same slug again.  Choosing a value that
    is no preset's font family stores [undefined]. *)
Theorem FontFamilyEdit_round_trip (registry : gmap string blockType)
    (presets : list fontFamilyPreset) (blockName : string)
    (attrs : blockAttributes) (p : fontFamilyPreset) :
  hasBlockSupport (registry !! blockName) FONT_FAMILY_SUPPORT_KEY = true →
  NoDup (slug <$> presets) →
  NoDup (presetFontFamily <$> presets) →
  p ∈ presets →
  fontFamily attrs = Some (slug p) →
  ∃ control,
    FontFamilyEdit registry (Some presets) blockName attrs = Some control ∧
    controlValue control = Some (presetFontFamily p) ∧
    controlOnChange control (presetFontFamily p) = Some (slug p) ∧
    (∀ v, Forall (λ q, presetFontFamily q ≠ v) presets →
          controlOnChange control v = None).
Proof.
  intros Hsup Hslugs Hfamilies Hp Hattr. unfold FontFamilyEdit.
  assert (useIsFontFamilyDisabled registry (Some presets) blockName = false) as ->.
  { unfold useIsFontFamilyDisabled. rewrite Hsup.
    rewrite bool_decide_eq_true_2 by eauto.
    destruct presets; [by apply elem_of_nil in Hp|done]. }
  eexists. split; [reflexivity|]. cbn [controlValue controlOnChange].
  unfold onChange, find. simpl. split; [|split].
  - rewrite (find_pointwise _ (λ q, bool_decide (slug q = slug p))).
    + by rewrite find_unique.
    + intros q. rewrite Hattr. apply bool_decide_ext. split; congruence.
  - by rewrite (find_unique presetFontFamily presets p).
  - intros v Hv. rewrite find_none; [done|].
    eapply Forall_impl; [exact Hv|]. intros q Hq. by apply bool_decide_eq_false.
Qed.

Lemma FontFamilyEdit_round_trip_witness :
  let block :=
    {| typeName := "core/paragraph"; typeAttributes := ∅;
       supports := {[ FONT_FAMILY_SUPPORT_KEY := true ]} |} in
  let registry : gmap string blockType := {[ "core/paragraph" := block ]} in
  let presets :=
    [ {| slug := "system"; presetFontFamily := "sans-serif" |};
      {| slug := "serif"; presetFontFamily := "Georgia, serif" |} ] in
  let blockName := "core/paragraph" in
  let attrs := {| fontFamily := Some "serif"; style := None |} in
  let p := {| slug := "serif"; presetFontFamily := "Georgia, serif" |} in
  (hasBlockSupport (registry !! blockName) FONT_FAMILY_SUPPORT_KEY = true ∧
   NoDup (slug <$> presets) ∧
   NoDup (presetFontFamily <$> presets) ∧
   p ∈ presets ∧
   fontFamily attrs = Some (slug p)) ∧
  ∃ control,
    FontFamilyEdit registry (Some presets) blockName attrs = Some control ∧
    controlValue control = Some (presetFontFamily p) ∧
    controlOnChange control (presetFontFamily p) = Some (slug p) ∧
    (∀ v, Forall (λ q, presetFontFamily q ≠ v) presets →
          controlOnChange control v = None).
Proof.
  intros block registry presets blockName attrs p.
  assert (hasBlockSupport (registry !! blockName) FONT_FAMILY_SUPPORT_KEY = true ∧
          NoDup (slug <$> presets) ∧
          NoDup (presetFontFamily <$> presets) ∧
          p ∈ presets ∧
          fontFamily attrs = Some (slug p)) as Hyp.
  { split; [reflexivity|]. split; [|split; [|split; [|reflexivity]]].
    - apply NoDup_cons. split; [by intros [=]%list_elem_of_singleton|].
      apply NoDup_singleton.
    - apply NoDup_cons. split; [by intros [=]%list_elem_of_singleton|].
      apply NoDup_singleton.
    - apply elem_of_cons. right. by apply list_elem_of_singleton. }
  split; [exact Hyp|].
  apply (FontFamilyEdit_round_trip registry presets blockName attrs p); apply Hyp.
Defined.

(** X16.  The editor shows what the control shows: when
    [withFontFamilyInlineStyles] adds the inline style to a block whose
    wrapper style has no [fontFamily] yet, the value it sets is the value
    [FontFamilyEdit] hands to the control for the same block. *)
Theorem inline_style_matches_control (registry : gmap string blockType)
    (fontFamilies : option (list fontFamilyPreset)) (props : blockProps)
    (control : fontFamilyControlProps) :
  FontFamilyEdit registry fontFamilies (name props) (attributes props)
  = Some control →
  hasBlockSupport (registry !! name props) SKIP_TYPOGRAPHY_SERIALIZATION_KEY = false →
  truthy (fontFamily (attributes props)) = true →
  truthy (inlineFontFamily (style (attributes props))) = false →
  default ∅ (wrapperProps props ≫= wrapperStyle) !! "fontFamily" = None →
  default ∅
    (wrapperProps (withFontFamilyInlineStyles registry fontFamilies props)
       ≫= wrapperStyle) !! "fontFamily"
  = Some (controlValue control).
Proof.
  unfold FontFamilyEdit, useIsFontFamilyDisabled.
  intros Hedit Hskip Hfamily Hinline Hnone.
  destruct (hasBlockSupport (registry !! name props) FONT_FAMILY_SUPPORT_KEY) eqn:Hsup.
  2: { by rewrite orb_true_r in Hedit. }
  destruct (_ || _); [done|]. injection Hedit as <-.
  unfold withFontFamilyInlineStyles. rewrite Hsup, Hskip, Hfamily, Hinline.
  cbn [negb orb]. simpl. unfold mergeStyle.
  rewrite lookup_union_r by done. rewrite lookup_singleton_eq.
  unfold find. do 2 f_equal. destruct fontFamilies as [presets|]; [|done]. simpl.
  apply find_pointwise. intros q. apply bool_decide_ext. split; congruence.
Qed.

Lemma inline_style_matches_control_witness :
  let block :=
    {| typeName := "core/paragraph"; typeAttributes := ∅;
       supports := {[ FONT_FAMILY_SUPPORT_KEY := true ]} |} in
  let registry : gmap string blockType := {[ "core/paragraph" := block ]} in
  let fontFamilies :=
    Some [ {| slug := "serif"; presetFontFamily := "Georgia, serif" |} ] in
  let props :=
    {| name := "core/paragraph";
       attributes := {| fontFamily := Some "serif"; style := None |};
       wrapperProps := None; otherProps := ∅ |} in
  let control :=
    {| controlClassName := "block-editor-hooks-font-family-control";
       controlFontFamilies := fontFamilies;
       controlValue := Some "Georgia, serif";
       controlOnChange := onChange fontFamilies |} in
  (FontFamilyEdit registry fontFamilies (name props) (attributes props)
   = Some control ∧
   hasBlockSupport (registry !! name props) SKIP_TYPOGRAPHY_SERIALIZATION_KEY = false ∧
   truthy (fontFamily (attributes props)) = true ∧
   truthy (inlineFontFamily (style (attributes props))) = false ∧
   default ∅ (wrapperProps props ≫= wrapperStyle) !! "fontFamily" = None) ∧
  default ∅
    (wrapperProps (withFontFamilyInlineStyles registry fontFamilies props)
       ≫= wrapperStyle) !! "fontFamily"
  = Some (controlValue control).
Proof.
  intros block registry fontFamilies props control.
  assert (FontFamilyEdit registry fontFamilies (name props) (attributes props)
          = Some control ∧
          hasBlockSupport (registry !! name props)
            SKIP_TYPOGRAPHY_SERIALIZATION_KEY = false ∧
          truthy (fontFamily (attributes props)) = true ∧
          truthy (inlineFontFamily (style (attributes props))) = false ∧
          default ∅ (wrapperProps props ≫= wrapperStyle) !! "fontFamily" = None)
    as Hyp by (repeat split).
  split; [exact Hyp|].
  apply (inline_style_matches_control registry fontFamilies props control);
    apply Hyp.
Defined.

End FontFamilyFacts.
